(** * ForcePointActuator (SoftRobots.Inverse): bounds, constraint rows, results

    A shallow embedding of
    [src/SoftRobots.Inverse/component/constraint/ForcePointActuator.inl].

    - Scalars ([Real], [double]) are IEEE 754 binary64 values, computed with
      the executable operations of [SpecFloat] (precision 53, emax 1024).
    - [sofa::type::vector] is a list; an index outside the vector is undefined
      behaviour in C++ and is an error ([None]) here.
    - [unsigned int] counters are [Z] with the wrap-around modulo 2^32 written
      out.
    - The actuator object is a record; every member function is a function
      from states to [option] states. *)

From Stdlib Require Import ZArith Bool Lia.
From Stdlib Require Import Floats.SpecFloat.
From stdpp Require Import base option list.

Local Open Scope Z_scope.

(** ** Scalars: binary64 *)

Module Real.
Definition prec : Z := 53.
Definition emax : Z := 1024.

Definition t := spec_float.

Definition add : t -> t -> t := SFadd prec emax.
Definition sub : t -> t -> t := SFsub prec emax.
Definition mul : t -> t -> t := SFmul prec emax.
Definition div : t -> t -> t := SFdiv prec emax.
Definition sqrt : t -> t := SFsqrt prec emax.

(** [x < y], [x <= y], [x >= y] of C++: false as soon as one side is NaN. *)
Definition lt (x y : t) : bool := SFltb x y.
Definition le (x y : t) : bool := SFleb x y.
Definition ge (x y : t) : bool := SFleb y x.

(** The double holding the integer [z] (rounded when [z] needs more than
    53 bits) and the double nearest to the decimal [m * 10^-k]. *)
Definition of_Z (z : Z) : t := binary_normalize prec emax z 0 false.
Definition of_dec (m : Z) (k : Z) : t := div (of_Z m) (of_Z (10 ^ k)).

Definition zero : t := S754_zero false.
Definition one : t := of_Z 1.

(** A double as stored: a canonical mantissa and exponent. *)
Definition valid (x : t) : bool := valid_binary prec emax x.
Definition is_finite (x : t) : bool :=
  match x with
  | S754_zero _ | S754_finite _ _ _ => true
  | _ => false
  end.
Definition is_nan (x : t) : bool :=
  match x with S754_nan => true | _ => false end.

(** The exponent of the smallest subnormal, and the exponent a number of
    magnitude [z] is stored with. *)
Definition emin : Z := SpecFloat.emin prec emax.
Definition fexp (z : Z) : Z := SpecFloat.fexp prec emax z.

(** Every finite double is an integer number of units [2^emin]; [ord] is
    that integer, with the infinities placed at [INF], beyond all of them.
    The order of the doubles is the order of these integers. *)
Definition INF : Z := 2 ^ (emax - emin).
Definition ord (x : t) : Z :=
  match x with
  | S754_zero _ | S754_nan => 0
  | S754_infinity s => cond_Zopp s INF
  | S754_finite s m e => cond_Zopp s (Zpos m * 2 ^ (e - emin))
  end.
End Real.

Abbreviation Real := Real.t.

(** [sofa::helper::rabs]. *)
Definition rabs (x : Real) : Real := SFabs x.

(** ** [sofa::type::vector]: unchecked indexing is an error out of range *)

Definition vec_get {A} (v : list A) (j : nat) : option A := v !! j.

Definition vec_set {A} (v : list A) (j : nat) (x : A) : option (list A) :=
  if decide (j < length v)%nat then Some (<[j:=x]> v) else None.

(** [v.resize(n, x)]: keeps the first [n] entries, pads with [x]. *)
Definition resize_with {A} (n : nat) (x : A) (v : list A) : list A :=
  take n v ++ replicate (n - length v) x.

(** [v.resize(n)] on a vector of scalars pads with value-initialised
    entries, that is [0.0]. *)
Definition vec_resize (n : nat) (v : list Real) : list Real :=
  resize_with n Real.zero v.

(** ** [Deriv]: a vector of three scalars *)

Record Deriv := mkDeriv { vx : Real; vy : Real; vz : Real }.

(** Modelled from the spec: [Deriv::total_size], a constant of the
    [DataTypes] template argument, which is declared outside this file; the
    spec fixes three force axes in free mode. *)
Definition Deriv_total_size : nat := 3.

(** [Deriv dir;] is zero-initialised. *)
Definition Deriv_zero : Deriv := mkDeriv Real.zero Real.zero Real.zero.

(** [dir[j] = x] for [j < Deriv::total_size]. *)
Definition Deriv_set (d : Deriv) (j : nat) (x : Real) : Deriv :=
  match j with
  | O => mkDeriv x (vy d) (vz d)
  | S O => mkDeriv (vx d) x (vz d)
  | S (S O) => mkDeriv (vx d) (vy d) x
  | _ => d
  end.

(** [sofa::type::Vec::norm2], [norm] and [operator/=] of the SOFA framework:
    the sum of the squares accumulated from the first component on, its
    square root, and the component-wise division. *)
Definition norm2 (d : Deriv) : Real :=
  Real.add (Real.add (Real.mul (vx d) (vx d)) (Real.mul (vy d) (vy d)))
           (Real.mul (vz d) (vz d)).

Definition norm (d : Deriv) : Real := Real.sqrt (norm2 d).

Definition Deriv_div (d : Deriv) (f : Real) : Deriv :=
  mkDeriv (Real.div (vx d) f) (Real.div (vy d) f) (Real.div (vz d) f).

(** ** [unsigned int] *)

Definition wrap32 (z : Z) : Z := z mod 2 ^ 32.

(** ** [sofa::Data<T>]: a value and whether it was explicitly set *)

Record Data (T : Type) := mkData { getValue : T; isSet : bool }.
Arguments mkData {T} _ _.
Arguments getValue {T} _.
Arguments isSet {T} _.

(** ** [MatrixDeriv]: rows of (column, value) entries

    [writeLine r] finds row [r] or creates it empty; [addCol c v] on the row
    iterator records the entry [(c, v)] in that row.  The matrix is kept as
    the rows in creation order, each with its entries in the order of the
    [addCol] calls. *)

Definition MatrixDeriv := list (Z * list (Z * Deriv)).

Fixpoint writeLine_addCols (m : MatrixDeriv) (r : Z) (cols : list (Z * Deriv))
  : MatrixDeriv :=
  match m with
  | [] => [(r, cols)]
  | (r', es) :: m' =>
      if Z.eqb r' r then (r', es ++ cols) :: m'
      else (r', es) :: writeLine_addCols m' r cols
  end.


(** ** Loops

    [for (unsigned int j = 0; j < n; j++) body] threads the state through
    the iterations and stops at the first error. *)

Fixpoint for_each {S : Type} (js : list nat) (body : nat -> S -> option S)
  (s : S) : option S :=
  match js with
  | [] => Some s
  | j :: js' => s' ← body j s; for_each js' body s'
  end.

Definition for_upto {S : Type} (n : nat) (body : nat -> S -> option S)
  (s : S) : option S :=
  for_each (seq 0 n) body s.

(** ** The actuator *)

(** The declared parameters ([Data] members read by the component) and the
    mechanical state the component is attached to: [m_state] is the point
    count returned by [m_state->getSize()], or [None] for [nullptr]. *)
Record Config := mkConfig {
  d_indices : list Z;
  d_maxForce : Data Real;
  d_minForce : Data Real;
  d_initForce : Data Real;
  d_maxForceVariation : Data Real;
  d_direction : Deriv;
  d_epsilon : Data Real;
  m_state : option Z
}.

(** The members written by the component. *)
Record State := mkState {
  m_dim : nat;
  m_hasEpsilon : bool;
  m_epsilon : Real;
  m_hasLambdaInit : bool;
  m_lambdaInit : list Real;
  m_lambdaMax : list Real;
  m_lambdaMin : list Real;
  m_hasLambdaMax : bool;
  m_hasLambdaMin : bool;
  d_force : list Real;
  d_displacement : Real;
  d_constraintIndex : Z;
  m_nbLines : Z
}.

Definition set_m_dim (v : nat) (s : State) : State :=
  mkState v (m_hasEpsilon s) (m_epsilon s) (m_hasLambdaInit s)
    (m_lambdaInit s) (m_lambdaMax s) (m_lambdaMin s) (m_hasLambdaMax s)
    (m_hasLambdaMin s) (d_force s) (d_displacement s) (d_constraintIndex s)
    (m_nbLines s).

Definition set_epsilon (v : Real) (s : State) : State :=
  mkState (m_dim s) true v (m_hasLambdaInit s)
    (m_lambdaInit s) (m_lambdaMax s) (m_lambdaMin s) (m_hasLambdaMax s)
    (m_hasLambdaMin s) (d_force s) (d_displacement s) (d_constraintIndex s)
    (m_nbLines s).

Definition set_m_hasLambdaInit (v : bool) (s : State) : State :=
  mkState (m_dim s) (m_hasEpsilon s) (m_epsilon s) v
    (m_lambdaInit s) (m_lambdaMax s) (m_lambdaMin s) (m_hasLambdaMax s)
    (m_hasLambdaMin s) (d_force s) (d_displacement s) (d_constraintIndex s)
    (m_nbLines s).

Definition set_m_lambdaInit (v : list Real) (s : State) : State :=
  mkState (m_dim s) (m_hasEpsilon s) (m_epsilon s) (m_hasLambdaInit s)
    v (m_lambdaMax s) (m_lambdaMin s) (m_hasLambdaMax s)
    (m_hasLambdaMin s) (d_force s) (d_displacement s) (d_constraintIndex s)
    (m_nbLines s).

Definition set_m_lambdaMax (v : list Real) (s : State) : State :=
  mkState (m_dim s) (m_hasEpsilon s) (m_epsilon s) (m_hasLambdaInit s)
    (m_lambdaInit s) v (m_lambdaMin s) (m_hasLambdaMax s)
    (m_hasLambdaMin s) (d_force s) (d_displacement s) (d_constraintIndex s)
    (m_nbLines s).

Definition set_m_lambdaMin (v : list Real) (s : State) : State :=
  mkState (m_dim s) (m_hasEpsilon s) (m_epsilon s) (m_hasLambdaInit s)
    (m_lambdaInit s) (m_lambdaMax s) v (m_hasLambdaMax s)
    (m_hasLambdaMin s) (d_force s) (d_displacement s) (d_constraintIndex s)
    (m_nbLines s).

Definition set_m_hasLambdaMax (v : bool) (s : State) : State :=
  mkState (m_dim s) (m_hasEpsilon s) (m_epsilon s) (m_hasLambdaInit s)
    (m_lambdaInit s) (m_lambdaMax s) (m_lambdaMin s) v
    (m_hasLambdaMin s) (d_force s) (d_displacement s) (d_constraintIndex s)
    (m_nbLines s).

Definition set_m_hasLambdaMin (v : bool) (s : State) : State :=
  mkState (m_dim s) (m_hasEpsilon s) (m_epsilon s) (m_hasLambdaInit s)
    (m_lambdaInit s) (m_lambdaMax s) (m_lambdaMin s) (m_hasLambdaMax s)
    v (d_force s) (d_displacement s) (d_constraintIndex s)
    (m_nbLines s).

Definition set_d_force (v : list Real) (s : State) : State :=
  mkState (m_dim s) (m_hasEpsilon s) (m_epsilon s) (m_hasLambdaInit s)
    (m_lambdaInit s) (m_lambdaMax s) (m_lambdaMin s) (m_hasLambdaMax s)
    (m_hasLambdaMin s) v (d_displacement s) (d_constraintIndex s)
    (m_nbLines s).

Definition set_d_displacement (v : Real) (s : State) : State :=
  mkState (m_dim s) (m_hasEpsilon s) (m_epsilon s) (m_hasLambdaInit s)
    (m_lambdaInit s) (m_lambdaMax s) (m_lambdaMin s) (m_hasLambdaMax s)
    (m_hasLambdaMin s) (d_force s) v (d_constraintIndex s)
    (m_nbLines s).

Definition set_d_constraintIndex (v : Z) (s : State) : State :=
  mkState (m_dim s) (m_hasEpsilon s) (m_epsilon s) (m_hasLambdaInit s)
    (m_lambdaInit s) (m_lambdaMax s) (m_lambdaMin s) (m_hasLambdaMax s)
    (m_hasLambdaMin s) (d_force s) (d_displacement s) v
    (m_nbLines s).

Definition set_m_nbLines (v : Z) (s : State) : State :=
  mkState (m_dim s) (m_hasEpsilon s) (m_epsilon s) (m_hasLambdaInit s)
    (m_lambdaInit s) (m_lambdaMax s) (m_lambdaMin s) (m_hasLambdaMax s)
    (m_hasLambdaMin s) (d_force s) (d_displacement s) (d_constraintIndex s)
    v.

(** The threshold [1e-10] of [initData]. *)
Definition direction_threshold : Real := Real.of_dec 1 10.

(** *** [initData] *)

Definition initData (c : Config) (s : State) : option State :=
  let s := set_m_dim (if Real.lt (norm (d_direction c)) direction_threshold
                      then Deriv_total_size else 1%nat) s in
  let s := if isSet (d_epsilon c) then set_epsilon (getValue (d_epsilon c)) s
           else s in
  s ← (if isSet (d_initForce c)
       then v ← vec_set (m_lambdaInit s) 0 (getValue (d_initForce c));
            Some (set_m_lambdaInit v (set_m_hasLambdaInit true s))
       else Some s);
  let force := resize_with (m_dim s) (getValue (d_initForce c)) [] in
  let s := set_d_force force s in
  let s := set_m_lambdaInit (vec_resize (m_dim s) (m_lambdaInit s)) s in
  let s := set_m_lambdaMax (vec_resize (m_dim s) (m_lambdaMax s)) s in
  let s := set_m_lambdaMin (vec_resize (m_dim s) (m_lambdaMin s)) s in
  Some s.

(** *** [updateLimit] *)

(** [for (auto& lambda : v) lambda = x;] *)
Definition broadcast (x : Real) (v : list Real) : list Real :=
  (fun _ => x) <$> v.

(** One axis of the rate limit: lines 198-201 (and 206-209 with [j = 0]). *)
Definition recenter (c : Config) (j : nat) (s : State) : option State :=
  let delta := getValue (d_maxForceVariation c) in
  lmin ← vec_get (m_lambdaMin s) j;
  f ← vec_get (d_force s) j;
  s ← (if Real.ge (rabs (Real.sub lmin f)) delta || negb (isSet (d_minForce c))
       then v ← vec_set (m_lambdaMin s) j (Real.sub f delta);
            Some (set_m_lambdaMin v s)
       else Some s);
  lmax ← vec_get (m_lambdaMax s) j;
  f ← vec_get (d_force s) j;
  if Real.ge (rabs (Real.sub lmax f)) delta || negb (isSet (d_maxForce c))
  then v ← vec_set (m_lambdaMax s) j (Real.add f delta);
       Some (set_m_lambdaMax v s)
  else Some s.

Definition updateLimit (c : Config) (s : State) : option State :=
  let s := if isSet (d_maxForce c)
           then set_m_lambdaMax
                  (broadcast (getValue (d_maxForce c)) (m_lambdaMax s)) s
           else s in
  let s := if isSet (d_minForce c)
           then set_m_lambdaMin
                  (broadcast (getValue (d_minForce c)) (m_lambdaMin s)) s
           else s in
  if isSet (d_maxForceVariation c)
  then if decide (1 < m_dim s)%nat
       then for_upto Deriv_total_size (recenter c) s
       else recenter c 0 s
  else Some s.

(** *** [initLimit] *)

Definition initLimit (c : Config) (s : State) : option State :=
  let s := if isSet (d_maxForce c) then set_m_hasLambdaMax true s else s in
  let s := if isSet (d_minForce c) then set_m_hasLambdaMin true s else s in
  let s := if isSet (d_maxForceVariation c)
           then set_m_hasLambdaMin true (set_m_hasLambdaMax true s)
           else s in
  updateLimit c s.

(** *** [buildConstraintMatrix] *)

(** The inner loop over [d_indices]: an [addCol] for every index below the
    body's point count.  The point count is read through [m_state] at each
    index, so a missing mechanical state only fails when there is an index
    to test. *)
Fixpoint addCols (body : option Z) (indices : list Z) (dir : Deriv)
  : option (list (Z * Deriv)) :=
  match indices with
  | [] => Some []
  | i :: rest =>
      n ← body;
      cols ← addCols body rest dir;
      Some (if Z.ltb i n then (i, dir) :: cols else cols)
  end.

(** One iteration of the free-mode loop (lines 236-242), on the pair of the
    matrix and the solver's row counter [cIndex]. *)
Definition free_row (c : Config) (constraintIndex : Z) (j : nat)
  (mc : MatrixDeriv * Z) : option (MatrixDeriv * Z) :=
  let dir := Deriv_set Deriv_zero j Real.one in
  cols ← addCols (m_state c) (d_indices c) dir;
  Some (writeLine_addCols (fst mc) (wrap32 (constraintIndex + Z.of_nat j)) cols,
        wrap32 (snd mc + 1)).

Definition buildConstraintMatrix (c : Config) (cMatrix : MatrixDeriv)
  (cIndex : Z) (s : State) : option (State * MatrixDeriv * Z) :=
  let s := set_d_constraintIndex cIndex s in
  let constraintIndex := d_constraintIndex s in
  '(matrix, cIndex') ←
    (if decide (1 < m_dim s)%nat
     then for_upto Deriv_total_size (free_row c constraintIndex)
            (cMatrix, cIndex)
     else
       let direction := Deriv_div (d_direction c) (norm (d_direction c)) in
       cols ← addCols (m_state c) (d_indices c) direction;
       Some (writeLine_addCols cMatrix constraintIndex cols,
             wrap32 (cIndex + 1)));
  Some (set_m_nbLines (wrap32 (cIndex' - constraintIndex)) s, matrix, cIndex').

(** *** [init], [reinit], [storeResults]

    The behaviour inherited from [Actuator] is outside this file: the base
    [init] and the base [storeResults] are taken as they come. *)

Section Actuator.

Variable Inherit1_init : Config -> State -> State.
Variable Actuator_storeResults :
  Config -> list Real -> list Real -> State -> State.

(** The [msg_error] on a missing mechanical state only logs. *)
Definition init (c : Config) (s : State) : option State :=
  let s := Inherit1_init c s in
  s ← initData c s;
  initLimit c s.

Definition reinit (c : Config) (s : State) : option State :=
  s ← initData c s;
  initLimit c s.

(** [force[j] = lambda[j]] *)
Definition store_force (lambda : list Real) (j : nat) (s : State)
  : option State :=
  l ← vec_get lambda j;
  v ← vec_set (d_force s) j l;
  Some (set_d_force v s).

(** The part of [storeResults] before the bounds are refreshed. *)
Definition store_fields (lambda delta : list Real) (s : State)
  : option State :=
  d0 ← vec_get delta 0;
  let s := set_d_displacement d0 s in
  if decide (1 < m_dim s)%nat
  then for_upto Deriv_total_size (store_force lambda) s
  else store_force lambda 0 s.

Definition storeResults (c : Config) (lambda delta : list Real) (s : State)
  : option State :=
  s ← store_fields lambda delta s;
  s ← updateLimit c s;
  Some (Actuator_storeResults c lambda delta s).

End Actuator.

(** ** Vocabulary of the statements *)

(** The floor and the ceiling that lines 198-201 leave on one axis, from
    the bound [a] (resp. [b]) found there and the force [f] of that axis. *)
Definition new_min (c : Config) (a f : Real) : Real :=
  if Real.ge (rabs (Real.sub a f)) (getValue (d_maxForceVariation c))
     || negb (isSet (d_minForce c))
  then Real.sub f (getValue (d_maxForceVariation c))
  else a.

Definition new_max (c : Config) (b f : Real) : Real :=
  if Real.ge (rabs (Real.sub b f)) (getValue (d_maxForceVariation c))
     || negb (isSet (d_maxForce c))
  then Real.add f (getValue (d_maxForceVariation c))
  else b.

(** The axes visited by the rate limit of [updateLimit]. *)
Definition axes (s : State) : list nat :=
  if decide (1 < m_dim s)%nat then seq 0 Deriv_total_size else [0%nat].

(** The bounds after the broadcasts of lines 180-190. *)
Definition broadcast_max (c : Config) (v : list Real) : list Real :=
  if isSet (d_maxForce c) then broadcast (getValue (d_maxForce c)) v else v.

Definition broadcast_min (c : Config) (v : list Real) : list Real :=
  if isSet (d_minForce c) then broadcast (getValue (d_minForce c)) v else v.

(** The bounds after the axes [js] were re-centred. *)
Definition recentered (new : Real -> Real -> Real) (js : list nat)
  (force v : list Real) : list Real :=
  imap (fun j a => if bool_decide (j ∈ js)
                   then from_option (new a) a (force !! j) else a) v.

Definition with_bounds (lmin lmax : list Real) (s : State) : State :=
  set_m_lambdaMax lmax (set_m_lambdaMin lmin s).

(** The closed form of [updateLimit]. *)
Definition limits (c : Config) (s : State) : State :=
  if isSet (d_maxForceVariation c)
  then with_bounds
         (recentered (new_min c) (axes s) (d_force s)
            (broadcast_min c (m_lambdaMin s)))
         (recentered (new_max c) (axes s) (d_force s)
            (broadcast_max c (m_lambdaMax s)))
         s
  else with_bounds (broadcast_min c (m_lambdaMin s))
         (broadcast_max c (m_lambdaMax s)) s.

(** The axes of the rate limit are inside the three vectors it indexes. *)
Definition axes_in_range (s : State) : Prop :=
  ∀ j, j ∈ axes s →
    (j < length (m_lambdaMin s) ∧ j < length (m_lambdaMax s)
     ∧ j < length (d_force s))%nat.

(** The shape [initData] gives the state: one or three axes, and the four
    vectors of that length. *)
Definition initialised (s : State) : Prop :=
  (m_dim s = 1%nat ∨ m_dim s = Deriv_total_size)
  ∧ length (d_force s) = m_dim s
  ∧ length (m_lambdaMin s) = m_dim s
  ∧ length (m_lambdaMax s) = m_dim s
  ∧ length (m_lambdaInit s) = m_dim s.

(** The dimension chosen by line 133. *)
Definition dimension (c : Config) : nat :=
  if Real.lt (norm (d_direction c)) direction_threshold
  then Deriv_total_size else 1%nat.

(** [m_lambdaInit[0] = ...] of line 144 is inside the vector. *)
Definition initData_defined (c : Config) (s : State) : Prop :=
  isSet (d_initForce c) = true → m_lambdaInit s ≠ [].

(** The direction written on row [j] in free mode, and on the single row in
    fixed mode. *)
Definition unit_axis (j : nat) : Deriv := Deriv_set Deriv_zero j Real.one.

Definition normalized (d : Deriv) : Deriv := Deriv_div d (norm d).

(** A sequence of [writeLine]s, each followed by its [addCol]s. *)
Definition emit (m : MatrixDeriv) (rows : list (Z * list (Z * Deriv)))
  : MatrixDeriv :=
  foldl (fun m r => writeLine_addCols m (fst r) (snd r)) m rows.

(** ** Vocabulary of the rounding lemmas *)

(** The second half of [binary_round_aux]: the rounded mantissa is brought
    back to its exponent and tested for overflow. *)
Definition stage2 (sx : bool) (m1 e1 : Z) : spec_float :=
  let '(mrs'', e'') := shr_fexp Real.prec Real.emax m1 e1 loc_Exact in
  match shr_m mrs'' with
  | Z0 => S754_zero sx
  | Zpos m =>
      if e'' <=? Real.emax - Real.prec then S754_finite sx m e''
      else S754_infinity sx
  | _ => S754_nan
  end.

(** The positive finite doubles and all finite doubles, in units. *)
Definition grid_pos (C : Z) : Prop :=
  ∃ m e, bounded Real.prec Real.emax m e = true
         ∧ C = Zpos m * 2 ^ (e - Real.emin).

Definition grid (C : Z) : Prop := C = 0 ∨ grid_pos C ∨ grid_pos (- C).

(** [r] is a rounding of the exact [S]: no finite double lies strictly
    between them. *)
Definition brackets (S r : Z) : Prop :=
  ∀ C, grid C → (S ≤ C → r ≤ C) ∧ (C ≤ S → C ≤ r).

(** ** Concrete actuators used as examples *)

Definition is_set (x : Real) : Data Real := mkData x true.
Definition not_set (x : Real) : Data Real := mkData x false.

Definition x_axis : Deriv := mkDeriv Real.one Real.zero Real.zero.

(** A fixed-direction actuator along x on a body of five points, with the
    defaults of the constructor for [initForce] (0) and [penalty] (1e-3) and
    nothing set. *)
Definition fixed_config : Config :=
  mkConfig [0; 1] (not_set Real.zero) (not_set Real.zero) (not_set Real.zero)
    (not_set Real.zero) x_axis (not_set (Real.of_dec 1 3)) (Some 5).

(** The same with a zero direction: free mode. *)
Definition free_config : Config :=
  mkConfig [0; 1] (not_set Real.zero) (not_set Real.zero) (not_set Real.zero)
    (not_set Real.zero) Deriv_zero (not_set (Real.of_dec 1 3)) (Some 5).

Definition with_limits (maxForce minForce variation : Data Real) (c : Config)
  : Config :=
  mkConfig (d_indices c) maxForce minForce (d_initForce c) variation
    (d_direction c) (d_epsilon c) (m_state c).

Definition with_initForce (initForce : Data Real) (c : Config) : Config :=
  mkConfig (d_indices c) (d_maxForce c) (d_minForce c) initForce
    (d_maxForceVariation c) (d_direction c) (d_epsilon c) (m_state c).

Definition with_indices (indices : list Z) (body : option Z) (c : Config)
  : Config :=
  mkConfig indices (d_maxForce c) (d_minForce c) (d_initForce c)
    (d_maxForceVariation c) (d_direction c) (d_epsilon c) body.

(** An actuator of one axis whose bounds are still zero and whose force
    is [f]. *)
Definition one_axis (f : Real) : State :=
  mkState 1 false Real.zero false [Real.zero] [Real.zero] [Real.zero]
    false false [f] Real.zero 0 0.

(** An actuator of three axes, all vectors at zero. *)
Definition three_axes : State :=
  mkState 3 false Real.zero false
    [Real.zero; Real.zero; Real.zero] [Real.zero; Real.zero; Real.zero]
    [Real.zero; Real.zero; Real.zero] false false
    [Real.zero; Real.zero; Real.zero] Real.zero 0 0.

(** An actuator on which [initData] has not run, with empty vectors. *)
Definition blank : State :=
  mkState 0 false Real.zero false [] [] [] false false [] Real.zero 0 0.

(** The scenario of the specification: [maxForce = 10], [minForce = -10],
    [maxForceVariation = 1]. *)
Definition scenario_config : Config :=
  with_limits (is_set (Real.of_Z 10)) (is_set (Real.of_Z (-10)))
    (is_set (Real.of_Z 1)) fixed_config.

(** Only the rate limit is set, to 1. *)
Definition rate_only_config : Config :=
  with_limits (not_set Real.zero) (not_set Real.zero) (is_set (Real.of_Z 1))
    fixed_config.

(** 2^53, the first double whose successor is two away. *)
Definition two_53 : Real := Real.of_Z (2 ^ 53).

(** Only [maxForce] is set, to -5. *)
Definition ceiling_only_config : Config :=
  with_limits (is_set (Real.of_Z (-5))) (not_set Real.zero)
    (not_set Real.zero) fixed_config.

(** A base behaviour that leaves the actuator as it is. *)
Definition no_base_init : Config -> State -> State := fun _ s => s.
Definition no_base_store : Config -> list Real -> list Real -> State -> State :=
  fun _ _ _ s => s.

(** The flags raised by [initLimit] before it calls [updateLimit]. *)
Definition limit_flags (c : Config) (s : State) : State :=
  let s := if isSet (d_maxForce c) then set_m_hasLambdaMax true s else s in
  let s := if isSet (d_minForce c) then set_m_hasLambdaMin true s else s in
  if isSet (d_maxForceVariation c)
  then set_m_hasLambdaMin true (set_m_hasLambdaMax true s)
  else s.

(** ** [getConstraintViolation]

    [resV->set(i, v)] on the solver's violation vector writes entry [i]
    without a check; [constraintId + j] is an [unsigned int] sum. *)

Definition BaseVector_set (v : list Real) (i : Z) (x : Real)
  : option (list Real) :=
  vec_set v (Z.to_nat i) x.

Definition getConstraintViolation (s : State) (resV : list Real)
  : option (list Real) :=
  let constraintId := d_constraintIndex s in
  if decide (1 < m_dim s)%nat
  then for_upto Deriv_total_size
         (fun j v =>
            BaseVector_set v (wrap32 (constraintId + Z.of_nat j)) Real.zero)
         resV
  else BaseVector_set resV constraintId Real.zero.

(** ** [draw]

    The draw tool is kept as the list of the calls it receives; the colour
    and the number of subdivisions of the arrows are constants and left out.
    [log] is the one of the C library and [20.0f] is the double 20. *)

Inductive DrawCommand :=
| SetLightingEnabled (b : bool)
| DrawArrow (p1 p2 : Deriv) (radius : Real)
| RestoreLastState.

(** [v * f] and [u - v] of [sofa::type::Vec]. *)
Definition Deriv_scale (d : Deriv) (f : Real) : Deriv :=
  mkDeriv (Real.mul (vx d) f) (Real.mul (vy d) f) (Real.mul (vz d) f).

Definition Deriv_sub (u v : Deriv) : Deriv :=
  mkDeriv (Real.sub (vx u) (vx v)) (Real.sub (vy u) (vy v))
    (Real.sub (vz u) (vz v)).

Section Draw.

Variable log : Real -> Real.

(** One turn of the loop over the indices (lines 321-335), on the pair of
    the calls drawn so far and the local [direction], which the fixed mode
    divides by its norm again at every index it draws. *)
Definition draw_index (c : Config) (s : State) (positions : list Deriv)
  (visuScale : Real) (index : Z) (acc : list DrawCommand * Deriv)
  : option (list DrawCommand * Deriv) :=
  let '(cmds, direction) := acc in
  n ← m_state c;
  if Z.ltb index n
  then
    position ← vec_get positions (Z.to_nat index);
    if decide (1 < m_dim s)%nat
    then
      f0 ← vec_get (d_force s) 0;
      f1 ← vec_get (d_force s) 1;
      f2 ← vec_get (d_force s) 2;
      let dir := mkDeriv f0 f1 f2 in
      Some (cmds ++ [DrawArrow (Deriv_sub position (Deriv_scale dir visuScale))
                       position
                       (Real.div (Real.mul (norm dir) visuScale)
                          (Real.of_Z 20))],
            direction)
    else
      let direction := Deriv_div direction (norm direction) in
      let dir := direction in
      f0 ← vec_get (d_force s) 0;
      let l := log (Real.add f0 Real.one) in
      Some (cmds ++ [DrawArrow
                       (Deriv_sub position
                          (Deriv_scale (Deriv_scale dir l) visuScale))
                       position
                       (Real.div (Real.mul l visuScale) (Real.of_Z 20))],
            direction)
  else Some (cmds, direction).

Fixpoint draw_indices (c : Config) (s : State) (positions : list Deriv)
  (visuScale : Real) (indices : list Z) (acc : list DrawCommand * Deriv)
  : option (list DrawCommand * Deriv) :=
  match indices with
  | [] => Some acc
  | index :: rest =>
      acc' ← draw_index c s positions visuScale index acc;
      draw_indices c s positions visuScale rest acc'
  end.

(** [showInteractionForceFields] is the display flag of the visual
    parameters, [showForce] and [visuScale] are the two visualisation
    parameters of the component; [positions] is what
    [m_state->readPositions()] returns, read before the loop. *)
Definition draw (showInteractionForceFields showForce : bool)
  (visuScale : Real) (c : Config) (positions : list Deriv) (s : State)
  : option (list DrawCommand) :=
  if negb showInteractionForceFields || negb showForce
  then Some []
  else
    _ ← m_state c;
    '(cmds, _) ← draw_indices c s positions visuScale (d_indices c)
                   ([SetLightingEnabled true], d_direction c);
    Some (cmds ++ [RestoreLastState]).

End Draw.

(** ** Vocabulary of the further properties *)

(** The entries of row [r], if the matrix has that row. *)
Fixpoint lookup_row (m : MatrixDeriv) (r : Z) : option (list (Z * Deriv)) :=
  match m with
  | [] => None
  | (r', es) :: m' => if Z.eqb r' r then Some es else lookup_row m' r
  end.

(** The rows of the actuator in the solver's numbering: the rows
    [buildConstraintMatrix] writes and [getConstraintViolation] resets. *)
Definition constraint_rows (s : State) : list Z :=
  if decide (1 < m_dim s)%nat
  then (fun j => wrap32 (d_constraintIndex s + Z.of_nat j))
         <$> seq 0 Deriv_total_size
  else [d_constraintIndex s].

(** The entries added to each row: one per index below the point count. *)
Definition entries (c : Config) (dir : Deriv) : list (Z * Deriv) :=
  (fun i => (i, dir))
    <$> filter (fun i => i < default 0 (m_state c)) (d_indices c).

(** The state [initData] returns when line 144 is in range, and the one
    [reinit] returns then. *)
Definition initData_value (c : Config) (s : State) : State :=
  let s := set_m_dim (dimension c) s in
  let s := if isSet (d_epsilon c) then set_epsilon (getValue (d_epsilon c)) s
           else s in
  let s := if isSet (d_initForce c)
           then set_m_lambdaInit
                  (<[0%nat:=getValue (d_initForce c)]> (m_lambdaInit s))
                  (set_m_hasLambdaInit true s)
           else s in
  let s := set_d_force
             (replicate (dimension c) (getValue (d_initForce c))) s in
  let s := set_m_lambdaInit (vec_resize (dimension c) (m_lambdaInit s)) s in
  let s := set_m_lambdaMax (vec_resize (dimension c) (m_lambdaMax s)) s in
  set_m_lambdaMin (vec_resize (dimension c) (m_lambdaMin s)) s.

Definition reinit_value (c : Config) (s : State) : State :=
  limits c (limit_flags c (initData_value c s)).

(** The arrows among the calls received by the draw tool. *)
Definition arrow_targets (cmds : list DrawCommand) : list Deriv :=
  omap (fun cmd => match cmd with DrawArrow _ p2 _ => Some p2 | _ => None end)
    cmds.

(** The arrow [draw] issues in fixed mode for the [k]-th point it draws,
    [p]: the local [direction] has been divided by its norm [k + 1] times by
    then. *)
Definition fixed_arrow (log : Real -> Real) (visuScale f0 : Real)
  (direction : Deriv) (k : nat) (p : Deriv) : DrawCommand :=
  let l := log (Real.add f0 Real.one) in
  DrawArrow
    (Deriv_sub p
       (Deriv_scale (Deriv_scale (Nat.iter (S k) normalized direction) l)
          visuScale))
    p (Real.div (Real.mul l visuScale) (Real.of_Z 20)).

(** The positions of the indices below the point count [n]. *)
Definition drawn_indices (c : Config) (n : Z) : list Z :=
  filter (fun i => i < n) (d_indices c).

(** The axes of an actuator of dimension [dim], and the two bounds
    [updateLimit] leaves, as functions of what they are computed from. *)
Definition axes_of (dim : nat) : list nat :=
  if decide (1 < dim)%nat then seq 0 Deriv_total_size else [0%nat].

Definition floor_after (c : Config) (dim : nat) (force lmin : list Real)
  : list Real :=
  if isSet (d_maxForceVariation c)
  then recentered (new_min c) (axes_of dim) force (broadcast_min c lmin)
  else broadcast_min c lmin.

Definition ceiling_after (c : Config) (dim : nat) (force lmax : list Real)
  : list Real :=
  if isSet (d_maxForceVariation c)
  then recentered (new_max c) (axes_of dim) force (broadcast_max c lmax)
  else broadcast_max c lmax.

(** * Properties *)

(** Projections of updated states. *)
Ltac state_simpl :=
  cbn [with_bounds set_m_dim set_epsilon set_m_hasLambdaInit set_m_lambdaInit
       set_m_lambdaMax set_m_lambdaMin set_m_hasLambdaMax set_m_hasLambdaMin
       set_d_force set_d_displacement set_d_constraintIndex set_m_nbLines
       m_dim m_hasEpsilon m_epsilon m_hasLambdaInit m_lambdaInit m_lambdaMax
       m_lambdaMin m_hasLambdaMax m_hasLambdaMin d_force d_displacement
       d_constraintIndex m_nbLines] in *.

(** ** The constants, evaluated *)

Example direction_threshold_value :
  direction_threshold = S754_finite false 7737125245533627 (-86).
Proof. vm_compute. reflexivity. Qed.

Example norm_x_axis : norm x_axis = Real.one.
Proof. vm_compute. reflexivity. Qed.

Example dimension_examples :
  dimension fixed_config = 1%nat ∧ dimension free_config = 3%nat.
Proof. split; vm_compute; reflexivity. Qed.

(** ** Vectors and loops *)

Lemma vec_set_Some {A} (v : list A) (j : nat) (x : A) :
  (j < length v)%nat → vec_set v j x = Some (<[j:=x]> v).
Proof. intros H. unfold vec_set. by rewrite decide_True. Qed.

Lemma vec_set_inv {A} (v v' : list A) (j : nat) (x : A) :
  vec_set v j x = Some v' → (j < length v)%nat ∧ v' = <[j:=x]> v.
Proof. unfold vec_set. case_decide; naive_solver. Qed.

Lemma length_resize_with {A} (n : nat) (x : A) (v : list A) :
  length (resize_with n x v) = n.
Proof.
  unfold resize_with.
  rewrite length_app, length_take, length_replicate. lia.
Qed.

Lemma resize_with_nil {A} (n : nat) (x : A) :
  resize_with n x [] = replicate n x.
Proof. unfold resize_with. by rewrite take_nil, Nat.sub_0_r. Qed.

Lemma for_each_app {S} (js ks : list nat) (body : nat -> S -> option S) s :
  for_each (js ++ ks) body s = s' ← for_each js body s; for_each ks body s'.
Proof.
  revert s. induction js as [|j js IH]; intros s; simpl; [done|].
  destruct (body j s) as [s1|]; simpl; [apply IH|done].
Qed.

Lemma for_each_one {S} (j : nat) (body : nat -> S -> option S) s :
  for_each [j] body s = body j s.
Proof. simpl. by destruct (body j s). Qed.

(** ** [recenter] *)

Lemma with_bounds_id s : with_bounds (m_lambdaMin s) (m_lambdaMax s) s = s.
Proof. by destruct s. Qed.

Lemma recenter_Some c j s a b f :
  m_lambdaMin s !! j = Some a →
  m_lambdaMax s !! j = Some b →
  d_force s !! j = Some f →
  recenter c j s
  = Some (with_bounds (<[j:=new_min c a f]> (m_lambdaMin s))
            (<[j:=new_max c b f]> (m_lambdaMax s)) s).
Proof.
  intros Ha Hb Hf. unfold recenter, vec_get, new_min, new_max.
  rewrite Ha, Hf. simpl.
  pose proof (lookup_lt_Some _ _ _ Ha) as La.
  pose proof (lookup_lt_Some _ _ _ Hb) as Lb.
  destruct (Real.ge (rabs (Real.sub a f)) _ || negb _); simpl.
  - rewrite (vec_set_Some _ _ _ La). simpl. rewrite Hb, Hf. simpl.
    destruct (Real.ge (rabs (Real.sub b f)) _ || negb _); simpl.
    + by rewrite (vec_set_Some _ _ _ Lb).
    + by rewrite (list_insert_id _ _ _ Hb).
  - rewrite Hb, Hf. simpl. rewrite (list_insert_id _ _ _ Ha).
    destruct (Real.ge (rabs (Real.sub b f)) _ || negb _); simpl.
    + rewrite (vec_set_Some _ _ _ Lb). by destruct s.
    + rewrite (list_insert_id _ _ _ Hb). by destruct s.
Qed.

Lemma recenter_inv c j s s' :
  recenter c j s = Some s' →
  ∃ a b f, m_lambdaMin s !! j = Some a ∧ m_lambdaMax s !! j = Some b
           ∧ d_force s !! j = Some f.
Proof.
  unfold recenter, vec_get. intros H.
  destruct (m_lambdaMin s !! j) as [a|] eqn:Ha; [|done].
  destruct (d_force s !! j) as [f|] eqn:Hf; [|done].
  simpl in H.
  destruct (m_lambdaMax s !! j) as [b|] eqn:Hb; [by eexists _, _, _|].
  exfalso.
  destruct (Real.ge _ _ || negb _); simpl in H.
  - destruct (vec_set _ _ _) as [v|] eqn:Hv; [|done]. simpl in H.
    apply vec_set_inv in Hv as [_ ->].
    cbn [set_m_lambdaMin m_lambdaMax] in H. by rewrite Hb in H.
  - by rewrite Hb in H.
Qed.

Lemma with_bounds_twice a b a' b' s :
  with_bounds a' b' (with_bounds a b s) = with_bounds a' b' s.
Proof. done. Qed.

Lemma recentered_nil new force v : recentered new [] force v = v.
Proof.
  apply list_eq; intros i. unfold recentered. rewrite list_lookup_imap.
  by destruct (v !! i).
Qed.

Lemma recentered_cons new j js force v a f :
  j ∉ js → v !! j = Some a → force !! j = Some f →
  recentered new js force (<[j:=new a f]> v) = recentered new (j :: js) force v.
Proof.
  intros Hj Ha Hf. apply list_eq; intros i. unfold recentered.
  rewrite !list_lookup_imap.
  destruct (decide (i = j)) as [->|Hne].
  - rewrite list_lookup_insert_eq by (by eapply lookup_lt_Some).
    rewrite Ha. simpl.
    rewrite (bool_decide_eq_false_2 _ Hj).
    rewrite bool_decide_eq_true_2 by (by left).
    by rewrite Hf.
  - rewrite list_lookup_insert_ne by done.
    destruct (v !! i) as [x|]; simpl; [|done].
    f_equal. apply (f_equal (fun t : bool => if t then _ else _)).
    apply bool_decide_ext. rewrite elem_of_cons.
    split; [by right|by intros [?|?]].
Qed.

Lemma length_recentered new js force v :
  length (recentered new js force v) = length v.
Proof. apply length_imap. Qed.

Lemma lookup_recentered new js force v i :
  recentered new js force v !! i
  = (fun a => if bool_decide (i ∈ js)
              then from_option (new a) a (force !! i) else a) <$> v !! i.
Proof. apply list_lookup_imap. Qed.

(** The loop over the axes, in closed form. *)
Lemma for_each_recenter c js s :
  NoDup js →
  (∀ j, j ∈ js → (j < length (m_lambdaMin s) ∧ j < length (m_lambdaMax s)
                  ∧ j < length (d_force s))%nat) →
  for_each js (recenter c) s
  = Some (with_bounds
            (recentered (new_min c) js (d_force s) (m_lambdaMin s))
            (recentered (new_max c) js (d_force s) (m_lambdaMax s)) s).
Proof.
  intros Hnd. revert s. induction Hnd as [|j js Hj Hnd IH]; intros s Hr.
  - simpl. by rewrite !recentered_nil, with_bounds_id.
  - destruct (Hr j) as (La & Lb & Lf); [by left|].
    apply lookup_lt_is_Some_2 in La as [a Ha].
    apply lookup_lt_is_Some_2 in Lb as [b Hb].
    apply lookup_lt_is_Some_2 in Lf as [f Hf].
    cbn [for_each]. rewrite (recenter_Some c j s a b f) by done.
    cbn [mbind option_bind]. rewrite IH.
    + cbn [with_bounds set_m_lambdaMax set_m_lambdaMin d_force m_lambdaMin
             m_lambdaMax].
      rewrite (recentered_cons (new_min c) j js (d_force s)) by done.
      rewrite (recentered_cons (new_max c) j js (d_force s)) by done.
      by destruct s.
    + intros i Hi. simpl. rewrite !length_insert. apply Hr. by right.
Qed.

Lemma for_each_recenter_inv c js s s' :
  for_each js (recenter c) s = Some s' →
  ∀ j, j ∈ js → (j < length (m_lambdaMin s) ∧ j < length (m_lambdaMax s)
                 ∧ j < length (d_force s))%nat.
Proof.
  revert s. induction js as [|i js IH]; intros s H j Hj.
  - by apply elem_of_nil in Hj.
  - cbn [for_each] in H.
    destruct (recenter c i s) as [s1|] eqn:H1; [|done].
    cbn [mbind option_bind] in H.
    destruct (recenter_inv _ _ _ _ H1) as (a & b & f & Ha & Hb & Hf).
    apply elem_of_cons in Hj as [->|Hj].
    + repeat split; by eapply lookup_lt_Some.
    + rewrite (recenter_Some c i s a b f) in H1 by done.
      injection H1 as <-.
      specialize (IH _ H j Hj). simpl in IH.
      by rewrite !length_insert in IH.
Qed.

(** ** [updateLimit] *)

Lemma NoDup_axes s : NoDup (axes s).
Proof.
  unfold axes. case_decide; [apply NoDup_seq|apply NoDup_singleton].
Qed.

Lemma length_broadcast_min c v : length (broadcast_min c v) = length v.
Proof.
  unfold broadcast_min, broadcast. destruct (isSet _); [apply length_fmap|done].
Qed.

Lemma length_broadcast_max c v : length (broadcast_max c v) = length v.
Proof.
  unfold broadcast_max, broadcast. destruct (isSet _); [apply length_fmap|done].
Qed.

(** [updateLimit] as the loop over [axes] after the two broadcasts. *)
Lemma updateLimit_unfold c s :
  updateLimit c s
  = let s0 := with_bounds (broadcast_min c (m_lambdaMin s))
                (broadcast_max c (m_lambdaMax s)) s in
    if isSet (d_maxForceVariation c)
    then for_each (axes s) (recenter c) s0
    else Some s0.
Proof.
  unfold updateLimit, broadcast_min, broadcast_max, axes, for_upto.
  assert (E : ∀ t, recenter c 0 t = for_each [0%nat] (recenter c) t)
    by (intros; by rewrite for_each_one).
  destruct s as [dim ? ? ? ? lmax lmin ? ? ? ? ? ?].
  destruct (isSet (d_maxForce c)), (isSet (d_minForce c)),
    (isSet (d_maxForceVariation c)); cbn zeta; state_simpl; try done;
    case_decide; try done; apply E.
Qed.

(** [updateLimit] is defined exactly when the rate limit is off or its axes
    are inside the vectors, and then it computes [limits]. *)
Lemma updateLimit_limits c s :
  (isSet (d_maxForceVariation c) = true → axes_in_range s) →
  updateLimit c s = Some (limits c s).
Proof.
  intros Hr. rewrite updateLimit_unfold. unfold limits. cbn zeta.
  destruct (isSet (d_maxForceVariation c)); [|done].
  specialize (Hr eq_refl).
  rewrite for_each_recenter.
  - done.
  - apply NoDup_axes.
  - intros j Hj. simpl.
    rewrite length_broadcast_min, length_broadcast_max. by apply Hr.
Qed.

Lemma updateLimit_inv c s s' :
  updateLimit c s = Some s' →
  s' = limits c s ∧ (isSet (d_maxForceVariation c) = true → axes_in_range s).
Proof.
  intros H.
  assert (Hr : isSet (d_maxForceVariation c) = true → axes_in_range s).
  { intros Hd. rewrite updateLimit_unfold in H. cbn zeta in H.
    rewrite Hd in H. intros j Hj.
    pose proof (for_each_recenter_inv _ _ _ _ H j Hj) as Hl. simpl in Hl.
    by rewrite length_broadcast_min, length_broadcast_max in Hl. }
  split; [|done].
  rewrite (updateLimit_limits c s Hr) in H. by injection H.
Qed.

Lemma recentered_min_idem c js force v :
  recentered (new_min c) js force
    (broadcast_min c (recentered (new_min c) js force (broadcast_min c v)))
  = recentered (new_min c) js force (broadcast_min c v).
Proof.
  apply list_eq; intros i. rewrite !lookup_recentered.
  unfold broadcast_min, broadcast, new_min.
  destruct (isSet (d_minForce c)) eqn:Hs.
  - rewrite !list_lookup_fmap, lookup_recentered, list_lookup_fmap.
    by destruct (v !! i).
  - rewrite lookup_recentered.
    destruct (v !! i) as [a|]; [|done]. cbn [fmap option_fmap option_map].
    f_equal. destruct (bool_decide (i ∈ js)); [|done].
    destruct (force !! i) as [f|]; [|done]. cbn [from_option negb].
    by rewrite !orb_true_r.
Qed.

Lemma recentered_max_idem c js force v :
  recentered (new_max c) js force
    (broadcast_max c (recentered (new_max c) js force (broadcast_max c v)))
  = recentered (new_max c) js force (broadcast_max c v).
Proof.
  apply list_eq; intros i. rewrite !lookup_recentered.
  unfold broadcast_max, broadcast, new_max.
  destruct (isSet (d_maxForce c)) eqn:Hs.
  - rewrite !list_lookup_fmap, lookup_recentered, list_lookup_fmap.
    by destruct (v !! i).
  - rewrite lookup_recentered.
    destruct (v !! i) as [a|]; [|done]. cbn [fmap option_fmap option_map].
    f_equal. destruct (bool_decide (i ∈ js)); [|done].
    destruct (force !! i) as [f|]; [|done]. cbn [from_option negb].
    by rewrite !orb_true_r.
Qed.

Lemma broadcast_idem x v : broadcast x (broadcast x v) = broadcast x v.
Proof. unfold broadcast. by rewrite <- list_fmap_compose. Qed.

Lemma limits_idem c s : limits c (limits c s) = limits c s.
Proof.
  unfold limits. destruct (isSet (d_maxForceVariation c)).
  - state_simpl. unfold axes. state_simpl. fold (axes s).
    by rewrite recentered_min_idem, recentered_max_idem.
  - state_simpl. unfold broadcast_min, broadcast_max.
    destruct (isSet (d_minForce c)), (isSet (d_maxForce c));
      by rewrite ?broadcast_idem.
Qed.

Lemma axes_in_range_limits c s : axes_in_range s → axes_in_range (limits c s).
Proof.
  unfold axes_in_range, limits, axes. intros H j Hj.
  destruct (isSet (d_maxForceVariation c)); state_simpl;
    rewrite ?length_recentered, length_broadcast_min, length_broadcast_max;
    by apply H.
Qed.

(** C7. [updateLimit] is idempotent: on every state on which a first call
    returns, a second call right after it (same force, same parameters)
    returns the very same state, in particular the same [lambdaMin] and
    [lambdaMax]. *)
Theorem updateLimit_idempotent c s s1 :
  updateLimit c s = Some s1 →
  updateLimit c s1 = Some s1.
Proof.
  intros H. apply updateLimit_inv in H as [-> Hr].
  rewrite updateLimit_limits.
  - by rewrite limits_idem.
  - intros Hd. by apply axes_in_range_limits, Hr.
Qed.

Lemma updateLimit_idempotent_witness :
  ∃ s1, updateLimit scenario_config (one_axis (Real.of_Z 3)) = Some s1
        ∧ updateLimit scenario_config s1 = Some s1
        ∧ m_lambdaMin s1 = [Real.of_Z 2] ∧ m_lambdaMax s1 = [Real.of_Z 4].
Proof.
  eexists. split; [vm_compute; reflexivity|]. split.
  - apply (updateLimit_idempotent scenario_config (one_axis (Real.of_Z 3))).
    vm_compute. reflexivity.
  - split; vm_compute; reflexivity.
Defined.

Lemma lookup_broadcast x v j : broadcast x v !! j = (fun _ => x) <$> v !! j.
Proof. apply list_lookup_fmap. Qed.

(** C1. On a fixed-direction actuator (one axis) with [maxForce], [minForce]
    and [maxForceVariation] all set, [updateLimit] is the re-centring of axis
    0 run on the state in which [maxForce] fills [lambdaMax] and [minForce]
    fills [lambdaMin]; each bound of axis 0 is moved to the force minus
    (resp. plus) the variation exactly when its distance to the force is at
    least the variation, and keeps the broadcast value otherwise.  With
    [maxForce = 10], [minForce = -10], variation 1 and force 3 the bounds of
    axis 0 become 2 and 4. *)
Theorem updateLimit_fixed_direction c s a b f :
  m_dim s = 1%nat →
  isSet (d_maxForce c) = true →
  isSet (d_minForce c) = true →
  isSet (d_maxForceVariation c) = true →
  m_lambdaMin s !! 0%nat = Some a →
  m_lambdaMax s !! 0%nat = Some b →
  d_force s !! 0%nat = Some f →
  let M := getValue (d_maxForce c) in
  let m := getValue (d_minForce c) in
  let delta := getValue (d_maxForceVariation c) in
  let lmin0 := broadcast m (m_lambdaMin s) in
  let lmax0 := broadcast M (m_lambdaMax s) in
  ∃ s',
    updateLimit c s = Some s'
    ∧ recenter c 0 (with_bounds lmin0 lmax0 s) = Some s'
    ∧ m_lambdaMin s'
      = <[0%nat := if Real.ge (rabs (Real.sub m f)) delta
                   then Real.sub f delta else m]> lmin0
    ∧ m_lambdaMax s'
      = <[0%nat := if Real.ge (rabs (Real.sub M f)) delta
                   then Real.add f delta else M]> lmax0
    ∧ d_force s' = d_force s
    ∧ (M = Real.of_Z 10 → m = Real.of_Z (-10) → delta = Real.of_Z 1 →
       f = Real.of_Z 3 →
       m_lambdaMin s' !! 0%nat = Some (Real.of_Z 2)
       ∧ m_lambdaMax s' !! 0%nat = Some (Real.of_Z 4)).
Proof.
  intros Hdim HM Hm Hd Ha Hb Hf M m delta lmin0 lmax0.
  assert (Hl : recenter c 0 (with_bounds lmin0 lmax0 s)
    = Some (with_bounds (<[0%nat:=new_min c m f]> lmin0)
              (<[0%nat:=new_max c M f]> lmax0) s)).
  { rewrite (recenter_Some c 0 _ m M f); state_simpl; [done| | |done].
    - subst lmin0. by rewrite lookup_broadcast, Ha.
    - subst lmax0. by rewrite lookup_broadcast, Hb. }
  eexists. split; [|split; [exact Hl|]].
  - rewrite updateLimit_unfold. cbn zeta. rewrite Hd.
    unfold axes. rewrite Hdim, decide_False by lia. rewrite for_each_one.
    unfold broadcast_min, broadcast_max. rewrite HM, Hm. exact Hl.
  - unfold new_min, new_max. rewrite HM, Hm. cbn [negb].
    rewrite !orb_false_r. state_simpl. fold M m delta.
    split; [done|]. split; [done|]. split; [done|].
    intros -> -> -> ->.
    assert (L0 : (0 < length lmin0)%nat).
    { subst lmin0. unfold broadcast. rewrite length_fmap.
      by eapply lookup_lt_Some. }
    assert (L1 : (0 < length lmax0)%nat).
    { subst lmax0. unfold broadcast. rewrite length_fmap.
      by eapply lookup_lt_Some. }
    rewrite !list_lookup_insert_eq by done.
    split; f_equal; vm_compute; reflexivity.
Qed.

Lemma updateLimit_fixed_direction_witness :
  ∃ s', updateLimit scenario_config (one_axis (Real.of_Z 3)) = Some s'
        ∧ m_lambdaMin s' !! 0%nat = Some (Real.of_Z 2)
        ∧ m_lambdaMax s' !! 0%nat = Some (Real.of_Z 4).
Proof.
  destruct (updateLimit_fixed_direction scenario_config
              (one_axis (Real.of_Z 3)) Real.zero Real.zero (Real.of_Z 3))
    as (s' & H1 & _ & _ & _ & _ & H6); try reflexivity.
  exists s'. split; [exact H1|]. apply H6; reflexivity.
Defined.

(** ** Initialised actuators *)

Lemma initialised_axes s j :
  initialised s → j ∈ axes s ↔ (j < m_dim s)%nat.
Proof.
  intros ([Hd|Hd] & _). all: unfold axes, Deriv_total_size in *; rewrite Hd.
  - rewrite decide_False by lia. rewrite list_elem_of_singleton. lia.
  - rewrite decide_True by lia. rewrite elem_of_seq. lia.
Qed.

Lemma initialised_in_range s : initialised s → axes_in_range s.
Proof.
  intros Hi j Hj. apply (initialised_axes s j Hi) in Hj.
  destruct Hi as (_ & -> & -> & -> & _). lia.
Qed.

Lemma initialised_limits c s : initialised s → initialised (limits c s).
Proof.
  unfold initialised, limits.
  destruct (isSet (d_maxForceVariation c)); state_simpl;
    rewrite ?length_recentered, length_broadcast_min, length_broadcast_max;
    done.
Qed.

Lemma limits_frame c s :
  m_dim (limits c s) = m_dim s ∧ d_force (limits c s) = d_force s
  ∧ d_displacement (limits c s) = d_displacement s
  ∧ m_lambdaInit (limits c s) = m_lambdaInit s.
Proof. unfold limits. by destruct (isSet (d_maxForceVariation c)). Qed.

(** On an initialised actuator [updateLimit] always returns. *)
Lemma updateLimit_initialised c s :
  initialised s → updateLimit c s = Some (limits c s).
Proof. intros Hi. apply updateLimit_limits. intros _. by apply initialised_in_range. Qed.

(** Both bounds of an axis after [updateLimit] when the rate limit is set. *)
Lemma limits_axis c s j a b f :
  isSet (d_maxForceVariation c) = true →
  initialised s → (j < m_dim s)%nat →
  broadcast_min c (m_lambdaMin s) !! j = Some a →
  broadcast_max c (m_lambdaMax s) !! j = Some b →
  d_force s !! j = Some f →
  m_lambdaMin (limits c s) !! j = Some (new_min c a f)
  ∧ m_lambdaMax (limits c s) !! j = Some (new_max c b f).
Proof.
  intros Hd Hi Hj Ha Hb Hf. unfold limits. rewrite Hd. state_simpl.
  rewrite !lookup_recentered, Ha, Hb, Hf.
  rewrite bool_decide_eq_true_2 by (by apply initialised_axes).
  done.
Qed.

(** C2 (amended). With [maxForceVariation] set and neither [minForce] nor
    [maxForce] set, [updateLimit] on an initialised actuator returns, and on
    every axis below the dimension it leaves [lambdaMax] at the double
    [force + variation] and [lambdaMin] at the double [force - variation]. *)
Theorem updateLimit_rate_only c s :
  isSet (d_maxForceVariation c) = true →
  isSet (d_minForce c) = false →
  isSet (d_maxForce c) = false →
  initialised s →
  ∃ s',
    updateLimit c s = Some s' ∧ d_force s' = d_force s ∧ m_dim s' = m_dim s
    ∧ ∀ j, (j < m_dim s')%nat →
        ∃ f, d_force s' !! j = Some f
             ∧ m_lambdaMax s' !! j
               = Some (Real.add f (getValue (d_maxForceVariation c)))
             ∧ m_lambdaMin s' !! j
               = Some (Real.sub f (getValue (d_maxForceVariation c))).
Proof.
  intros Hd Hm HM Hi. exists (limits c s).
  destruct (limits_frame c s) as (Edim & Ef & _).
  split; [by apply updateLimit_initialised|]. split; [done|]. split; [done|].
  rewrite Edim, Ef. intros j Hj.
  pose proof Hi as (_ & Lf & La & Lb & _).
  destruct (lookup_lt_is_Some_2 (d_force s) j) as [f Hf]; [lia|].
  destruct (lookup_lt_is_Some_2 (m_lambdaMin s) j) as [a Ha]; [lia|].
  destruct (lookup_lt_is_Some_2 (m_lambdaMax s) j) as [b Hb]; [lia|].
  exists f. split; [done|].
  destruct (limits_axis c s j a b f) as [E1 E2]; try done.
  - unfold broadcast_min. by rewrite Hm.
  - unfold broadcast_max. by rewrite HM.
  - rewrite E1, E2. unfold new_min, new_max. rewrite Hm, HM. cbn [negb].
    by rewrite !orb_true_r.
Qed.

Lemma initialised_one_axis f : initialised (one_axis f).
Proof. unfold initialised. cbn. tauto. Qed.

Lemma updateLimit_rate_only_witness :
  ∃ s', updateLimit rate_only_config (one_axis (Real.of_Z 3)) = Some s'
        ∧ m_lambdaMax s' !! 0%nat = Some (Real.of_Z 4)
        ∧ m_lambdaMin s' !! 0%nat = Some (Real.of_Z 2).
Proof.
  destruct (updateLimit_rate_only rate_only_config (one_axis (Real.of_Z 3)))
    as (s' & H1 & Hf & Hdim & H); try reflexivity.
  { apply initialised_one_axis. }
  exists s'. split; [exact H1|].
  destruct (H 0%nat) as (f & Ef & EM & Em).
  { rewrite Hdim. cbn. lia. }
  rewrite Hf in Ef. injection Ef as <-. split; assumption.
Defined.

(** C2 as stated fails on doubles: with variation 1 and force 2^53 the
    ceiling [force + 1] rounds back to 2^53, so [lambdaMax - force] is 0 and
    not 1.  The state is the one [storeResults] leaves when the solver
    returns the multiplier 2^53 to an actuator set up by [reinit]. *)
Lemma updateLimit_rate_only_difference_counterexample :
  isSet (d_maxForceVariation rate_only_config) = true
  ∧ isSet (d_minForce rate_only_config) = false
  ∧ isSet (d_maxForce rate_only_config) = false
  ∧ initialised (one_axis two_53)
  ∧ ∃ s' M f,
      updateLimit rate_only_config (one_axis two_53) = Some s'
      ∧ m_lambdaMax s' !! 0%nat = Some M
      ∧ d_force s' !! 0%nat = Some f
      ∧ Real.sub M f = Real.zero
      ∧ Real.sub M f ≠ getValue (d_maxForceVariation rate_only_config)
      ∧ SFeqb (Real.sub M f)
          (getValue (d_maxForceVariation rate_only_config)) = false
      ∧ ∃ s0 s1,
          reinit rate_only_config blank = Some s0
          ∧ storeResults no_base_store rate_only_config [two_53] [Real.zero]
              s0 = Some s1
          ∧ m_lambdaMax s1 = m_lambdaMax s' ∧ d_force s1 = d_force s'.
Proof.
  split; [reflexivity|]. split; [reflexivity|]. split; [reflexivity|].
  split; [apply initialised_one_axis|].
  exists (limits rate_only_config (one_axis two_53)), two_53, two_53.
  split; [vm_compute; reflexivity|].
  split; [vm_compute; reflexivity|].
  split; [vm_compute; reflexivity|].
  split; [vm_compute; reflexivity|].
  split; [vm_compute; discriminate|].
  split; [vm_compute; reflexivity|].
  eexists _, _. split; [vm_compute; reflexivity|].
  split; [vm_compute; reflexivity|]. split; vm_compute; reflexivity.
Qed.

(** ** [initData], [initLimit], [init] and [reinit] *)

Lemma initData_inv c s s1 : initData c s = Some s1 → initData_defined c s.
Proof.
  unfold initData, initData_defined. cbn zeta. intros H Hi Hnil.
  rewrite Hi in H.
  destruct (isSet (d_epsilon c)); state_simpl; rewrite Hnil in H; done.
Qed.

Lemma initData_Some c s :
  initData_defined c s →
  ∃ s1, initData c s = Some s1
        ∧ initialised s1
        ∧ m_dim s1 = dimension c
        ∧ d_force s1 = replicate (dimension c) (getValue (d_initForce c)).
Proof.
  unfold initData, initData_defined, initialised. cbn zeta.
  fold (dimension c). intros H.
  assert (Hd : dimension c = 1%nat ∨ dimension c = Deriv_total_size).
  { unfold dimension. destruct (Real.lt _ _); auto. }
  destruct (isSet (d_initForce c)).
  - destruct (m_lambdaInit s) as [|x l] eqn:El; [by destruct H|].
    destruct (isSet (d_epsilon c)); state_simpl; rewrite El;
      (eexists; split; [reflexivity|]); state_simpl;
      unfold vec_resize; rewrite !length_resize_with, resize_with_nil; done.
  - destruct (isSet (d_epsilon c)); state_simpl;
      (eexists; split; [reflexivity|]); state_simpl;
      unfold vec_resize; rewrite !length_resize_with, resize_with_nil; done.
Qed.

Lemma initLimit_unfold c s : initLimit c s = updateLimit c (limit_flags c s).
Proof. done. Qed.

Lemma limit_flags_frame c s :
  m_dim (limit_flags c s) = m_dim s
  ∧ d_force (limit_flags c s) = d_force s
  ∧ m_lambdaMin (limit_flags c s) = m_lambdaMin s
  ∧ m_lambdaMax (limit_flags c s) = m_lambdaMax s
  ∧ m_lambdaInit (limit_flags c s) = m_lambdaInit s.
Proof.
  unfold limit_flags.
  by destruct (isSet (d_maxForce c)), (isSet (d_minForce c)),
    (isSet (d_maxForceVariation c)).
Qed.

Lemma initialised_limit_flags c s :
  initialised s → initialised (limit_flags c s).
Proof.
  unfold initialised.
  destruct (limit_flags_frame c s) as (-> & -> & -> & -> & ->). done.
Qed.

(** On an initialised actuator line 144 is inside [m_lambdaInit]: every
    [reinit] after a first [init] returns. *)
Lemma initialised_initData_defined c s : initialised s → initData_defined c s.
Proof.
  intros ([Hd|Hd] & _ & _ & _ & Hl) _ Hnil; rewrite Hnil, Hd in Hl; done.
Qed.

Lemma init_reinit base c s : init base c s = reinit c (base c s).
Proof. done. Qed.

Lemma reinit_inv c s s' : reinit c s = Some s' → initData_defined c s.
Proof.
  unfold reinit. intros H.
  destruct (initData c s) as [s1|] eqn:H1; [|done].
  by eapply initData_inv.
Qed.

(** [reinit] returns as soon as line 144 is inside [m_lambdaInit], and leaves
    an initialised actuator of the dimension of line 133 whose force is
    filled with [initForce]. *)
Lemma reinit_Some c s :
  initData_defined c s →
  ∃ s', reinit c s = Some s'
        ∧ initialised s'
        ∧ m_dim s' = dimension c
        ∧ d_force s' = replicate (dimension c) (getValue (d_initForce c)).
Proof.
  intros H. destruct (initData_Some c s H) as (s1 & E1 & Hi & Hdim & Hf).
  exists (limits c (limit_flags c s1)).
  unfold reinit. rewrite E1. cbn [mbind option_bind].
  rewrite initLimit_unfold.
  pose proof (initialised_limit_flags c s1 Hi) as Hi'.
  split; [by apply updateLimit_initialised|].
  split; [by apply initialised_limits|].
  destruct (limits_frame c (limit_flags c s1)) as (-> & -> & _).
  destruct (limit_flags_frame c s1) as (-> & -> & _). done.
Qed.



(** C6. After every [init] or [reinit] that returns, [force], [lambdaMin],
    [lambdaMax] and [lambdaInit] have exactly [m_dim] entries and every entry
    of [force] is the value of [initForce]; both return whenever line 144 is
    inside [m_lambdaInit]. *)
Theorem init_reinit_lengths base c s :
  let sized s' :=
    length (d_force s') = m_dim s'
    ∧ length (m_lambdaMin s') = m_dim s'
    ∧ length (m_lambdaMax s') = m_dim s'
    ∧ length (m_lambdaInit s') = m_dim s'
    ∧ d_force s' = replicate (m_dim s') (getValue (d_initForce c)) in
  (initData_defined c s → ∃ s', reinit c s = Some s' ∧ sized s')
  ∧ (initData_defined c (base c s) →
     ∃ s', init base c s = Some s' ∧ sized s')
  ∧ (∀ s', reinit c s = Some s' ∨ init base c s = Some s' → sized s').
Proof.
  cbn zeta.
  assert (R : ∀ t, initData_defined c t →
    ∃ s', reinit c t = Some s'
          ∧ length (d_force s') = m_dim s'
          ∧ length (m_lambdaMin s') = m_dim s'
          ∧ length (m_lambdaMax s') = m_dim s'
          ∧ length (m_lambdaInit s') = m_dim s'
          ∧ d_force s' = replicate (m_dim s') (getValue (d_initForce c))).
  { intros t Ht.
    destruct (reinit_Some c t Ht) as (s' & E & (_ & ? & ? & ? & ?) & Hd & Hf).
    exists s'. rewrite Hd at 5. done. }
  assert (P : ∀ t s', reinit c t = Some s' →
          length (d_force s') = m_dim s'
          ∧ length (m_lambdaMin s') = m_dim s'
          ∧ length (m_lambdaMax s') = m_dim s'
          ∧ length (m_lambdaInit s') = m_dim s'
          ∧ d_force s' = replicate (m_dim s') (getValue (d_initForce c))).
  { intros t s' E. destruct (R t (reinit_inv _ _ _ E)) as (s2 & E2 & H).
    congruence. }
  split; [apply R|]. split; [rewrite init_reinit; apply R|].
  intros s' [E|E]; [by eapply P|]. rewrite init_reinit in E. by eapply P.
Qed.

Lemma init_reinit_lengths_witness :
  ∃ s', reinit free_config blank = Some s'
        ∧ length (d_force s') = 3%nat
        ∧ length (m_lambdaMin s') = 3%nat
        ∧ length (m_lambdaMax s') = 3%nat
        ∧ length (m_lambdaInit s') = 3%nat
        ∧ d_force s' = [Real.zero; Real.zero; Real.zero].
Proof.
  destruct (proj1 (init_reinit_lengths no_base_init free_config blank))
    as (s' & E & H1 & H2 & H3 & H4 & H5).
  { intros H; discriminate H. }
  exists s'.
  assert (Hd : m_dim s' = 3%nat).
  { revert E. vm_compute. intros E. injection E as <-. reflexivity. }
  rewrite Hd in *. repeat split; assumption.
Defined.

(** ** [storeResults] *)

Lemma store_force_Some lambda j s l :
  lambda !! j = Some l → (j < length (d_force s))%nat →
  store_force lambda j s = Some (set_d_force (<[j:=l]> (d_force s)) s).
Proof.
  intros Hl Hj. unfold store_force, vec_get. rewrite Hl. simpl.
  by rewrite (vec_set_Some _ _ _ Hj).
Qed.

Lemma store_force_inv lambda j s s' :
  store_force lambda j s = Some s' →
  (j < length lambda ∧ j < length (d_force s))%nat.
Proof.
  unfold store_force, vec_get. intros H.
  destruct (lambda !! j) as [l|] eqn:Hl; [|done]. simpl in H.
  destruct (vec_set _ _ _) as [v|] eqn:Hv; [|done].
  apply vec_set_inv in Hv as [Hv _].
  split; [by eapply lookup_lt_Some|done].
Qed.

(** The copy loop in closed form: the visited axes take the entry of
    [lambda], the others keep theirs. *)
Lemma for_each_store_force lambda js s :
  NoDup js →
  (∀ j, j ∈ js → (j < length lambda ∧ j < length (d_force s))%nat) →
  for_each js (store_force lambda) s
  = Some (set_d_force
            (recentered (fun _ l => l) js lambda (d_force s)) s).
Proof.
  intros Hnd. revert s. induction Hnd as [|j js Hj Hnd IH]; intros s Hr.
  - simpl. rewrite recentered_nil. by destruct s.
  - destruct (Hr j) as (Ll & Lf); [by left|].
    apply lookup_lt_is_Some_2 in Ll as [l Hl].
    pose proof Lf as Lf'. apply lookup_lt_is_Some_2 in Lf' as [f Hf].
    cbn [for_each]. rewrite (store_force_Some lambda j s l) by done.
    cbn [mbind option_bind]. rewrite IH.
    + state_simpl.
      rewrite (recentered_cons (fun _ l => l) j js lambda (d_force s) f l)
        by done.
      done.
    + intros i Hi. state_simpl. rewrite length_insert. apply Hr. by right.
Qed.

Lemma for_each_store_force_inv lambda js s s' :
  for_each js (store_force lambda) s = Some s' →
  ∀ j, j ∈ js → (j < length lambda)%nat.
Proof.
  revert s. induction js as [|i js IH]; intros s H j Hj.
  - by apply elem_of_nil in Hj.
  - cbn [for_each] in H.
    destruct (store_force lambda i s) as [s1|] eqn:H1; [|done].
    cbn [mbind option_bind] in H.
    apply elem_of_cons in Hj as [->|Hj].
    + by destruct (store_force_inv _ _ _ _ H1).
    + by eapply IH.
Qed.

Lemma store_fields_unfold lambda delta s :
  store_fields lambda delta s
  = d0 ← delta !! 0%nat;
    for_each (axes s) (store_force lambda) (set_d_displacement d0 s).
Proof.
  unfold store_fields, vec_get, axes, for_upto.
  destruct (delta !! 0%nat) as [d0|]; [|done]. simpl.
  case_decide; [done|]. by rewrite for_each_one.
Qed.

Lemma store_fields_Some lambda delta s d0 :
  initialised s → delta !! 0%nat = Some d0 →
  (m_dim s ≤ length lambda)%nat →
  store_fields lambda delta s
  = Some (set_d_force
            (recentered (fun _ l => l) (axes s) lambda (d_force s))
            (set_d_displacement d0 s)).
Proof.
  intros Hi Hd Hl. rewrite store_fields_unfold, Hd. simpl.
  change (axes (set_d_displacement d0 s)) with (axes s).
  rewrite for_each_store_force; [done|apply NoDup_axes|].
  intros j Hj. apply (initialised_axes s j Hi) in Hj. state_simpl.
  destruct Hi as (_ & -> & _). lia.
Qed.

Lemma store_fields_inv lambda delta s s1 :
  initialised s → store_fields lambda delta s = Some s1 →
  delta ≠ [] ∧ (m_dim s ≤ length lambda)%nat.
Proof.
  intros Hi. rewrite store_fields_unfold. intros H.
  destruct delta as [|d0 delta]; [done|]. split; [done|]. simpl in H.
  pose proof (for_each_store_force_inv _ _ _ _ H) as Hr.
  change (axes (set_d_displacement d0 s)) with (axes s) in Hr.
  destruct Hi as ([Hd|Hd] & _).
  - rewrite Hd. apply (Hr 0%nat). unfold axes. rewrite Hd.
    rewrite decide_False by lia. by left.
  - rewrite Hd. unfold Deriv_total_size in *.
    apply (Hr 2%nat). unfold axes. rewrite Hd, decide_True by lia.
    apply elem_of_seq. unfold Deriv_total_size. lia.
Qed.

Lemma initialised_stored lambda d0 s :
  initialised s →
  initialised
    (set_d_force (recentered (fun _ l => l) (axes s) lambda (d_force s))
       (set_d_displacement d0 s)).
Proof. unfold initialised. state_simpl. by rewrite length_recentered. Qed.

(** On an initialised actuator [storeResults] returns when [delta] is not
    empty and [lambda] covers the axes: the copies, then [updateLimit], then
    the base behaviour. *)
Lemma storeResults_Some base c lambda delta s d0 :
  initialised s → delta !! 0%nat = Some d0 →
  (m_dim s ≤ length lambda)%nat →
  storeResults base c lambda delta s
  = Some (base c lambda delta
            (limits c
               (set_d_force
                  (recentered (fun _ l => l) (axes s) lambda (d_force s))
                  (set_d_displacement d0 s)))).
Proof.
  intros Hi Hd Hl. unfold storeResults.
  rewrite (store_fields_Some lambda delta s d0 Hi Hd Hl).
  cbn [mbind option_bind].
  by rewrite (updateLimit_initialised c _ (initialised_stored lambda d0 s Hi)).
Qed.

(** C5. On an initialised actuator, for [delta] non-empty and [lambda] of at
    least [m_dim] entries, [storeResults] stores [delta[0]] in
    [displacement] and [lambda[j]] in [force[j]] for every axis, then calls
    [updateLimit], which returns and leaves both untouched, and hands the
    resulting state to the base [storeResults].  With [lambda = [5.0]] and
    [delta = [0.2]] on one axis, [force[0]] is 5.0 and [displacement] 0.2. *)
Theorem storeResults_stores base c lambda delta s d0 :
  initialised s →
  delta !! 0%nat = Some d0 →
  (m_dim s ≤ length lambda)%nat →
  ∃ s1 s2,
    store_fields lambda delta s = Some s1
    ∧ updateLimit c s1 = Some s2
    ∧ storeResults base c lambda delta s = Some (base c lambda delta s2)
    ∧ d_displacement s1 = d0 ∧ d_displacement s2 = d0
    ∧ (∀ j, (j < m_dim s)%nat →
         d_force s1 !! j = lambda !! j ∧ d_force s2 !! j = lambda !! j)
    ∧ m_dim s2 = m_dim s ∧ length (d_force s2) = m_dim s
    ∧ (m_dim s = 1%nat → lambda = [Real.of_Z 5] → delta = [Real.of_dec 2 1] →
       d_force s2 !! 0%nat = Some (Real.of_Z 5)
       ∧ d_displacement s2 = Real.of_dec 2 1).
Proof.
  intros Hi Hd Hl.
  pose proof (store_fields_Some lambda delta s d0 Hi Hd Hl) as E1.
  pose proof (initialised_stored lambda d0 s Hi) as Hi1.
  set (s1 := set_d_force _ _) in *.
  pose proof (updateLimit_initialised c s1 Hi1) as E2.
  destruct (limits_frame c s1) as (Edim & Ef & Edisp & _).
  exists s1, (limits c s1).
  assert (F : ∀ j, (j < m_dim s)%nat → d_force s1 !! j = lambda !! j).
  { intros j Hj. subst s1. state_simpl. rewrite lookup_recentered.
    rewrite bool_decide_eq_true_2 by (by apply initialised_axes).
    destruct Hi as (_ & Lf & _).
    destruct (lookup_lt_is_Some_2 (d_force s) j) as [f ->]; [lia|].
    destruct (lookup_lt_is_Some_2 lambda j) as [l ->]; [lia|]. done. }
  split; [done|]. split; [done|].
  split; [by apply storeResults_Some|].
  split; [done|]. split; [by rewrite Edisp|].
  split; [intros j Hj; rewrite Ef; auto|].
  split; [done|]. split.
  { rewrite Ef. by destruct Hi1 as (_ & -> & _). }
  intros H1 -> ->. rewrite Ef, Edisp. split.
  - rewrite F by lia. done.
  - injection Hd as <-. done.
Qed.

Lemma storeResults_stores_witness :
  ∃ s2,
    storeResults no_base_store fixed_config [Real.of_Z 5] [Real.of_dec 2 1]
      (one_axis Real.zero) = Some s2
    ∧ d_force s2 !! 0%nat = Some (Real.of_Z 5)
    ∧ d_displacement s2 = Real.of_dec 2 1.
Proof.
  destruct (storeResults_stores no_base_store fixed_config [Real.of_Z 5]
              [Real.of_dec 2 1] (one_axis Real.zero) (Real.of_dec 2 1))
    as (s1 & s2 & _ & _ & E & _ & _ & _ & _ & _ & H).
  - apply initialised_one_axis.
  - reflexivity.
  - cbn. lia.
  - exists s2. split; [exact E|]. apply H; reflexivity.
Defined.

(** ** [buildConstraintMatrix] *)

Lemma addCols_Some n indices dir :
  addCols (Some n) indices dir
  = Some ((fun i => (i, dir)) <$> filter (fun i => i < n) indices).
Proof.
  induction indices as [|i indices IH]; [done|].
  cbn [addCols mbind option_bind]. rewrite IH. cbn [mbind option_bind].
  rewrite filter_cons. destruct (Z.ltb_spec i n).
  - by rewrite decide_True.
  - by rewrite decide_False by lia.
Qed.

Lemma addCols_is_Some body indices dir :
  is_Some (addCols body indices dir) ↔ is_Some body ∨ indices = [].
Proof.
  split.
  - intros H. destruct indices; [by right|]. left.
    destruct body; [done|]. by destruct H.
  - intros [[n ->] | ->]; [by rewrite addCols_Some|done].
Qed.

Lemma wrap32_succ3 z : wrap32 (wrap32 (wrap32 (z + 1) + 1) + 1) = wrap32 (z + 3).
Proof. unfold wrap32. Z.div_mod_to_equations. lia. Qed.

Lemma wrap32_rows z k :
  0 ≤ z < 2 ^ 32 → 0 ≤ k < 2 ^ 32 → wrap32 (wrap32 (z + k) - z) = k.
Proof. unfold wrap32. intros. Z.div_mod_to_equations. lia. Qed.

Lemma wrap32_distinct z j k :
  0 ≤ j < 2 ^ 32 → 0 ≤ k < 2 ^ 32 → j ≠ k →
  Z.eqb (wrap32 (z + j)) (wrap32 (z + k)) = false.
Proof.
  intros. apply Z.eqb_neq. unfold wrap32. Z.div_mod_to_equations. lia.
Qed.



Lemma buildConstraintMatrix_is_Some c cMatrix cIndex s :
  is_Some (buildConstraintMatrix c cMatrix cIndex s)
  ↔ is_Some (m_state c) ∨ d_indices c = [].
Proof.
  unfold buildConstraintMatrix, for_upto, Deriv_total_size, free_row.
  cbn zeta. cbn [seq for_each].
  destruct (m_state c) as [n|].
  - rewrite !addCols_Some. cbn [mbind option_bind].
    case_decide; cbn [mbind option_bind]; split; eauto.
  - destruct (d_indices c) as [|i l].
    + case_decide; cbn [addCols mbind option_bind]; split; eauto.
    + case_decide; cbn [addCols mbind option_bind]; split.
      all: try (intros [? ?]; done).
      all: intros [[? ?]|?]; done.
Qed.

(** C9 (amended). [buildConstraintMatrix] returns for every index list,
    body size, matrix and offset as soon as a mechanical state is attached
    (or there is no index to test), and only then; on an initialised actuator
    [storeResults] returns exactly when [delta] is non-empty and [lambda] has
    at least [m_dim] entries. *)
Theorem hot_path_defined base c s cMatrix cIndex lambda delta :
  initialised s →
  (is_Some (buildConstraintMatrix c cMatrix cIndex s)
   ↔ is_Some (m_state c) ∨ d_indices c = [])
  ∧ (is_Some (storeResults base c lambda delta s)
     ↔ delta ≠ [] ∧ (m_dim s ≤ length lambda)%nat).
Proof.
  intros Hi. split; [apply buildConstraintMatrix_is_Some|]. split.
  - intros [s' H]. unfold storeResults in H.
    destruct (store_fields lambda delta s) as [s1|] eqn:E1; [|done].
    by eapply store_fields_inv.
  - intros [Hd Hl]. destruct delta as [|d0 delta]; [done|].
    by rewrite (storeResults_Some base c lambda (d0 :: delta) s d0).
Qed.

Lemma hot_path_defined_witness :
  is_Some (buildConstraintMatrix (with_indices [0; 7; 1] (Some 5) fixed_config)
             [] 10 (one_axis Real.zero))
  ∧ is_Some (storeResults no_base_store fixed_config [Real.of_Z 5]
               [Real.of_dec 2 1] (one_axis Real.zero)).
Proof.
  destruct (hot_path_defined no_base_store
              (with_indices [0; 7; 1] (Some 5) fixed_config)
              (one_axis Real.zero) [] 10 [Real.of_Z 5] [Real.of_dec 2 1]
              (initialised_one_axis Real.zero)) as [Hb Hs].
  split.
  - apply Hb. left. eexists. reflexivity.
  - apply Hs. split; [discriminate|cbn; lia].
Defined.

(** C9 as stated fails: on an initialised one-axis actuator [storeResults]
    reads [delta[0]] of an empty [delta], and [lambda[0]] of an empty
    [lambda], outside the vector. *)
Lemma hot_path_counterexample :
  initialised (one_axis Real.zero)
  ∧ storeResults no_base_store fixed_config [Real.of_Z 5] []
      (one_axis Real.zero) = None
  ∧ storeResults no_base_store fixed_config [] [Real.of_dec 2 1]
      (one_axis Real.zero) = None.
Proof.
  split; [apply initialised_one_axis|]. split; vm_compute; reflexivity.
Qed.

(** C8 as stated fails: with only [maxForce = -5] set, [reinit] on an
    actuator whose vectors are still empty leaves [lambdaMin] at the zero it
    was resized with and [lambdaMax] at -5; a further [updateLimit] changes
    nothing. *)
Lemma bounds_ordered_counterexample :
  isSet (d_maxForceVariation ceiling_only_config) = false
  ∧ isSet (d_minForce ceiling_only_config) = false
  ∧ ∃ s s',
      reinit ceiling_only_config blank = Some s
      ∧ initialised s
      ∧ updateLimit ceiling_only_config s = Some s'
      ∧ m_dim s' = 1%nat
      ∧ m_lambdaMin s' !! 0%nat = Some Real.zero
      ∧ m_lambdaMax s' !! 0%nat = Some (Real.of_Z (-5))
      ∧ Real.le Real.zero (Real.of_Z (-5)) = false.
Proof.
  split; [reflexivity|]. split; [reflexivity|].
  destruct (reinit_Some ceiling_only_config blank) as (s & E & Hi & _).
  { intros H; discriminate H. }
  exists s, s. split; [exact E|]. split; [exact Hi|].
  revert E. vm_compute. intros E. injection E as <-.
  repeat split; reflexivity.
Qed.

(** ** Rounding of binary64 sums and differences

    The sum and the difference of two finite doubles are rounded to a
    neighbouring double: the result never passes a double that the exact
    value does not pass. *)

Lemma emin_eq : Real.emin = 3 - Real.emax - Real.prec.
Proof. reflexivity. Qed.
Lemma fexp_eq z : Real.fexp z = Z.max (z - Real.prec) Real.emin.
Proof. reflexivity. Qed.
Lemma prec_gt_0 : 0 < Real.prec. Proof. reflexivity. Qed.
Lemma prec_lt_emax : Real.prec < Real.emax. Proof. reflexivity. Qed.

#[local] Opaque Real.prec Real.emax Real.emin Real.fexp.

(** *** Number of bits of a mantissa *)
Lemma digits2_pos_bounds p :
  2 ^ (Zpos (digits2_pos p) - 1) ≤ Zpos p < 2 ^ Zpos (digits2_pos p).
Proof.
  induction p as [p IH|p IH|]; cbn [digits2_pos].
  - rewrite Pos2Z.inj_succ.
    replace (Z.succ (Zpos (digits2_pos p)) - 1)
      with (Z.succ (Zpos (digits2_pos p) - 1)) by lia.
    rewrite !Z.pow_succ_r by lia. lia.
  - rewrite Pos2Z.inj_succ.
    replace (Z.succ (Zpos (digits2_pos p)) - 1)
      with (Z.succ (Zpos (digits2_pos p) - 1)) by lia.
    rewrite !Z.pow_succ_r by lia. lia.
  - cbn. lia.
Qed.

(** The number of bits of a positive integer is determined by its size. *)
Lemma digits_unique (x d : Z) : 0 < d → 2 ^ (d - 1) ≤ x < 2 ^ d →
  ∀ d', 0 < d' → 2 ^ (d' - 1) ≤ x < 2 ^ d' → d = d'.
Proof.
  intros Hd [H1 H2] d' Hd' [H1' H2'].
  assert (d - 1 < d') by (apply (Z.pow_lt_mono_r_iff 2); lia).
  assert (d' - 1 < d) by (apply (Z.pow_lt_mono_r_iff 2); lia).
  lia.
Qed.

Lemma digits_mono (x y dx dy : Z) : 0 < dx → 0 < dy →
  2 ^ (dx - 1) ≤ x < 2 ^ dx → 2 ^ (dy - 1) ≤ y < 2 ^ dy → x ≤ y → dx ≤ dy.
Proof.
  intros ? ? [H1 H2] [H3 H4] Hxy.
  assert (dx - 1 < dy) by (apply (Z.pow_lt_mono_r_iff 2); lia). lia.
Qed.

Lemma digits2_pos_shift p k : 0 ≤ k →
  ∀ q, Zpos q = Zpos p * 2 ^ k → Zpos (digits2_pos q) = Zpos (digits2_pos p) + k.
Proof.
  intros Hk q Hq.
  pose proof (digits2_pos_bounds p) as [B1 B2].
  pose proof (digits2_pos_bounds q) as Bq.
  eapply (digits_unique (Zpos q)); [lia|exact Bq|lia|].
  rewrite Hq. replace (Zpos (digits2_pos p) + k - 1) with (Zpos (digits2_pos p) - 1 + k) by lia.
  rewrite !Z.pow_add_r by lia.
  assert (0 < 2 ^ k) by (apply Z.pow_pos_nonneg; lia).
  nia.
Qed.

(** *** The right shift [shr] and the rounding of the mantissa *)
(** [iter_pos] is plain iteration. *)
Lemma iter_pos_nat {A} (f : A → A) p x :
  SpecFloat.iter_pos f p x = Nat.iter (Pos.to_nat p) f x.
Proof.
  revert x. induction p as [p IH|p IH|]; intros x; cbn [SpecFloat.iter_pos].
  - rewrite !IH, Pos2Nat.inj_xI.
    replace (S (2 * Pos.to_nat p)) with (Pos.to_nat p + (Pos.to_nat p + 1))%nat
      by lia.
    by rewrite !Nat.iter_add.
  - rewrite !IH, Pos2Nat.inj_xO.
    replace (2 * Pos.to_nat p)%nat with (Pos.to_nat p + Pos.to_nat p)%nat
      by lia.
    by rewrite Nat.iter_add.
  - reflexivity.
Qed.

Lemma shr_1_spec m r s : 0 ≤ m →
  shr_1 (Build_shr_record m r s) = Build_shr_record (m / 2) (Z.odd m) (r || s).
Proof.
  intros Hm. rewrite <- Z.div2_div.
  destruct m as [|[p|p|]|]; try reflexivity. lia.
Qed.

Lemma iter_shr_1_spec (k : nat) m : 0 ≤ m →
  ∃ r s, Nat.iter k shr_1 (Build_shr_record m false false)
         = Build_shr_record (m / 2 ^ Z.of_nat k) r s
         ∧ (m mod 2 ^ Z.of_nat k = 0 → r = false ∧ s = false).
Proof.
  intros Hm. induction k as [|k (r & s & E & H)].
  - exists false, false. split; [|done].
    change (2 ^ Z.of_nat 0) with 1. by rewrite Z.div_1_r.
  - rewrite Nat.iter_succ, E.
    assert (P2 : 0 < 2 ^ Z.of_nat k) by (apply Z.pow_pos_nonneg; lia).
    rewrite shr_1_spec by (apply Z.div_pos; lia).
    eexists _, _. split.
    + f_equal. rewrite Z.div_div by lia. f_equal.
      rewrite Nat2Z.inj_succ, Z.pow_succ_r by lia. lia.
    + rewrite Nat2Z.inj_succ, Z.pow_succ_r by lia. intros H0.
      assert (m mod 2 ^ Z.of_nat k = 0 ∧ (m / 2 ^ Z.of_nat k) mod 2 = 0) as [H1 H2].
      { rewrite Z.mul_comm in H0. rewrite Z.rem_mul_r in H0 by lia.
        pose proof (Z.mod_pos_bound m (2 ^ Z.of_nat k) P2).
        pose proof (Z.mod_pos_bound (m / 2 ^ Z.of_nat k) 2 ltac:(lia)).
        nia. }
      destruct (H H1) as [-> ->]. split; [|done].
      rewrite Zodd_mod, H2. reflexivity.
Qed.

(** [n] shifts divide the mantissa by [2^n]; the round and sticky bits are
    clear when nothing is lost. *)
Lemma shr_spec m e n : 0 ≤ m → 0 ≤ n →
  ∃ r s, shr (Build_shr_record m false false) e n
         = (Build_shr_record (m / 2 ^ n) r s, e + n)
         ∧ (m mod 2 ^ n = 0 → r = false ∧ s = false).
Proof.
  intros Hm Hn. destruct n as [|p|p]; [| |lia].
  - exists false, false. cbn [shr]. rewrite Z.add_0_r.
    change (2 ^ 0) with 1. by rewrite Z.div_1_r.
  - cbn [shr]. rewrite iter_pos_nat.
    destruct (iter_shr_1_spec (Pos.to_nat p) m Hm) as (r & s & E & H).
    rewrite positive_nat_Z in *. exists r, s. by rewrite E.
Qed.

Lemma round_nearest_even_spec q l :
  q ≤ round_nearest_even q l ≤ q + 1
  ∧ (l = loc_Exact → round_nearest_even q l = q).
Proof.
  unfold round_nearest_even.
  destruct l as [|[| |]]; [| destruct (Z.even q)| |]; (split; [lia|done]).
Qed.

Lemma Pos_iter_xO m d : Zpos (Pos.iter xO m d) = Zpos m * 2 ^ Zpos d.
Proof.
  induction d as [|d IH] using Pos.peano_ind.
  - cbn. lia.
  - rewrite Pos.iter_succ, Pos2Z.inj_xO, IH, Pos2Z.inj_succ, Z.pow_succ_r by lia.
    lia.
Qed.

(** [shl_align] lowers the exponent and keeps the value. *)
Lemma shl_align_spec mx ex ex' :
  ∃ mz ez, shl_align mx ex ex' = (mz, ez)
           ∧ ez = Z.min ex ex'
           ∧ Zpos mz = Zpos mx * 2 ^ (ex - ez).
Proof.
  unfold shl_align. destruct (ex' - ex) as [|d|d] eqn:E.
  - exists mx, ex. rewrite Z.min_l by lia. rewrite Z.sub_diag.
    split; [done|]. split; [done|]. cbn; lia.
  - exists mx, ex. rewrite Z.min_l by lia. rewrite Z.sub_diag.
    split; [done|]. split; [done|]. cbn; lia.
  - eexists _, ex'. split; [done|]. rewrite Z.min_r by lia. split; [done|].
    rewrite Pos_iter_xO. do 2 f_equal. lia.
Qed.

Lemma binary_round_aux_stages sx mx ex lx :
  binary_round_aux Real.prec Real.emax sx mx ex lx
  = stage2 sx (round_nearest_even (shr_m (fst (shr_fexp Real.prec Real.emax mx ex lx)))
                 (loc_of_shr_record (fst (shr_fexp Real.prec Real.emax mx ex lx))))
      (snd (shr_fexp Real.prec Real.emax mx ex lx)).
Proof.
  unfold binary_round_aux, stage2.
  by destruct (shr_fexp Real.prec Real.emax mx ex lx) as [mrs' e'].
Qed.

Lemma pow2_pos k : 0 ≤ k → 0 < 2 ^ k.
Proof. intros. apply Z.pow_pos_nonneg; lia. Qed.

Lemma stage2_canonical sx m e :
  Real.fexp (Zpos (digits2_pos m) + e) = e →
  stage2 sx (Zpos m) e
  = if e <=? Real.emax - Real.prec then S754_finite sx m e else S754_infinity sx.
Proof.
  intros Hc. unfold stage2, shr_fexp. cbn [Zdigits2 shr_record_of_loc].
  change (SpecFloat.fexp Real.prec Real.emax ?z) with (Real.fexp z).
  rewrite Hc, Z.sub_diag. reflexivity.
Qed.

Lemma stage2_carry sx m e :
  Zpos m = 2 ^ Real.prec → Real.emin ≤ e →
  ∃ m', Zpos m' = 2 ^ (Real.prec - 1)
        ∧ Real.fexp (Zpos (digits2_pos m') + (e + 1)) = e + 1
        ∧ stage2 sx (Zpos m) e
          = if e + 1 <=? Real.emax - Real.prec then S754_finite sx m' (e + 1)
            else S754_infinity sx.
Proof.
  intros Hm He. pose proof prec_gt_0 as HP.
  assert (Hd : Zpos (digits2_pos m) = Real.prec + 1).
  { eapply (digits_unique (Zpos m)); [lia|apply digits2_pos_bounds|lia|].
    rewrite Hm. replace (Real.prec + 1 - 1) with Real.prec by lia.
    rewrite Z.pow_add_r by lia. pose proof (pow2_pos Real.prec ltac:(lia)).
    change (2 ^ 1) with 2. lia. }
  assert (H2 : 2 ^ Real.prec = 2 * 2 ^ (Real.prec - 1)).
  { rewrite <- Z.pow_succ_r by lia. f_equal; lia. }
  pose proof (pow2_pos (Real.prec - 1) ltac:(lia)) as Hpos.
  destruct (2 ^ (Real.prec - 1)) as [|m'|] eqn:Em'; try lia.
  exists m'. split; [done|].
  assert (Hd' : Zpos (digits2_pos m') = Real.prec).
  { eapply (digits_unique (Zpos m')); [lia|apply digits2_pos_bounds|lia|].
    rewrite H2, Em'. lia. }
  split.
  { rewrite Hd', fexp_eq. lia. }
  unfold stage2, shr_fexp. cbn [Zdigits2 shr_record_of_loc].
  change (SpecFloat.fexp Real.prec Real.emax ?z) with (Real.fexp z).
  rewrite Hd. rewrite fexp_eq.
  replace (Z.max (Real.prec + 1 + e - Real.prec) Real.emin - e) with 1 by lia.
  destruct (shr_spec (Zpos m) e 1) as (r & s & E & _); [lia|lia|].
  rewrite E. cbn [shr_m]. rewrite Hm, H2.
  change (2 ^ 1) with 2. rewrite Z.mul_comm, Z.div_mul by lia. reflexivity.
Qed.

Lemma emin_le : Real.emin ≤ Real.emax - Real.prec.
Proof. rewrite emin_eq. pose proof prec_gt_0. pose proof prec_lt_emax. lia. Qed.

Lemma pow2_le a b : 0 ≤ a ≤ b → 2 ^ a ≤ 2 ^ b.
Proof. intros. apply Z.pow_le_mono_r; lia. Qed.

Lemma pow2_split a b : 0 ≤ a → 0 ≤ b → 2 ^ (a + b) = 2 ^ a * 2 ^ b.
Proof. intros. apply Z.pow_add_r; lia. Qed.

(** *** [binary_round_aux] on an exact positive mantissa

    The result [R], in units, is a multiple of the spacing [2^u] at [X], less
    than one spacing away from [X] and not below the power of two under [X];
    it is returned as a canonical double, or as an infinity when it reaches
    [INF]. *)
Lemma binary_round_aux_pos sx mx ex :
  Real.emin ≤ ex → ex ≤ Real.fexp (Zpos (digits2_pos mx) + ex) →
  let dX := Zpos (digits2_pos mx) + ex - Real.emin in
  let u := Real.fexp (Zpos (digits2_pos mx) + ex) - Real.emin in
  let X := Zpos mx * 2 ^ (ex - Real.emin) in
  let r := binary_round_aux Real.prec Real.emax sx (Zpos mx) ex loc_Exact in
  ∃ R, (∃ t, R = t * 2 ^ u) ∧ X - 2 ^ u < R < X + 2 ^ u ∧ 2 ^ (dX - 1) ≤ R
       ∧ ((R < Real.INF
           ∧ ∃ m e, r = S754_finite sx m e ∧ bounded Real.prec Real.emax m e = true
                    ∧ Zpos m * 2 ^ (e - Real.emin) = R)
          ∨ (Real.INF ≤ R ∧ r = S754_infinity sx)).
Proof.
  intros He Hle. cbn zeta.
  pose proof prec_gt_0 as HP. pose proof emin_le as HE.
  pose proof (digits2_pos_bounds mx) as [D1 D2].
  rewrite binary_round_aux_stages. unfold shr_fexp.
  cbn [Zdigits2 shr_record_of_loc].
  change (SpecFloat.fexp Real.prec Real.emax ?z) with (Real.fexp z).
  set (d := Zpos (digits2_pos mx)) in *.
  assert (Hd : 0 < d) by (subst d; lia).
  set (n := Real.fexp (d + ex) - ex). assert (Hn : 0 ≤ n) by (subst n; lia).
  destruct (shr_spec (Zpos mx) ex n) as (r & s & E & Hex); [lia|lia|].
  rewrite E. cbn [fst snd shr_m].
  set (q := Zpos mx / 2 ^ n).
  set (loc := loc_of_shr_record _).
  destruct (round_nearest_even_spec q loc) as [[Q1 Q2] Q3].
  assert (Hexact : Zpos mx mod 2 ^ n = 0 → round_nearest_even q loc = q).
  { intros H0. apply Q3. destruct (Hex H0) as [-> ->]. reflexivity. }
  set (m1 := round_nearest_even q loc) in *.
  pose proof (pow2_pos n Hn) as Pn.
  pose proof (Z.div_mod (Zpos mx) (2 ^ n) ltac:(lia)) as DM. fold q in DM.
  pose proof (Z.mod_pos_bound (Zpos mx) (2 ^ n) Pn) as MB.
  set (w := ex - Real.emin). assert (Hw : 0 ≤ w) by (subst w; lia).
  pose proof (pow2_pos w Hw) as Pw.
  assert (Eu : Real.fexp (d + ex) - Real.emin = n + w). { subst n w. lia. }
  rewrite Eu. rewrite (pow2_split n w) by lia.
  (* the rounded mantissa brackets the exact one *)
  assert (B : Zpos mx - 2 ^ n < m1 * 2 ^ n < Zpos mx + 2 ^ n).
  { destruct (Z.eq_dec (Zpos mx mod 2 ^ n) 0) as [H0|H0].
    - rewrite (Hexact H0). nia.
    - nia. }
  assert (Xb : Zpos mx * 2 ^ w - 2 ^ n * 2 ^ w < m1 * (2 ^ n * 2 ^ w)
               < Zpos mx * 2 ^ w + 2 ^ n * 2 ^ w) by nia.
  pose proof (fexp_eq (d + ex)) as Hf. rewrite Z.max_comm in Hf.
  destruct (Z.max_spec Real.emin (d + ex - Real.prec)) as [[Hlt Hmax]|[Hge Hmax]];
    rewrite Hmax in Hf.
  - (* normal range: the mantissa is cut to [Real.prec] bits *)
    assert (En : n = d - Real.prec) by (subst n; lia).
    assert (Hq : 2 ^ (Real.prec - 1) ≤ q < 2 ^ Real.prec).
    { assert (2 ^ (d - 1) = 2 ^ (Real.prec - 1) * 2 ^ n)
        by (rewrite <- pow2_split by lia; f_equal; lia).
      assert (2 ^ d = 2 ^ Real.prec * 2 ^ n)
        by (rewrite <- pow2_split by lia; f_equal; lia).
      pose proof (pow2_pos (Real.prec - 1) ltac:(lia)). nia. }
    pose proof (pow2_pos (Real.prec - 1) ltac:(lia)) as Pp.
    assert (P2 : 2 ^ Real.prec = 2 * 2 ^ (Real.prec - 1)).
    { rewrite <- Z.pow_succ_r by lia. f_equal; lia. }
    assert (Edx : 2 ^ (d + ex - Real.emin - 1) = 2 ^ (Real.prec - 1) * (2 ^ n * 2 ^ w)).
    { rewrite <- !pow2_split by lia. f_equal; lia. }
    exists (m1 * (2 ^ n * 2 ^ w)).
    split; [by exists m1|]. split; [exact Xb|]. split; [rewrite Edx; nia|].
    destruct (m1) as [|m1p|] eqn:Em1; try lia.
    destruct (Z_lt_le_dec (Zpos m1p) (2 ^ Real.prec)) as [Hlt1|Hge1].
    + assert (Hd1 : Zpos (digits2_pos m1p) = Real.prec).
      { eapply (digits_unique (Zpos m1p));
          [lia|apply digits2_pos_bounds|lia|lia]. }
      assert (Hc : Real.fexp (Zpos (digits2_pos m1p) + (ex + n)) = ex + n).
      { rewrite Hd1, fexp_eq. lia. }
      rewrite (stage2_canonical sx m1p (ex + n) Hc).
      assert (Ew : 2 ^ n * 2 ^ w = 2 ^ (ex + n - Real.emin)).
      { rewrite <- pow2_split by lia. f_equal; lia. }
      destruct (Z.leb_spec (ex + n) (Real.emax - Real.prec)) as [Hb|Hb].
      * left. split.
        { unfold Real.INF. rewrite Ew.
          assert (2 ^ Real.prec * 2 ^ (ex + n - Real.emin) ≤ 2 ^ (Real.emax - Real.emin)).
          { rewrite <- pow2_split by lia. apply pow2_le. lia. }
          pose proof (pow2_pos (ex + n - Real.emin) ltac:(lia)). nia. }
        exists m1p, (ex + n). split; [done|]. split; [|by rewrite Ew].
        unfold bounded, canonical_mantissa.
        change (SpecFloat.fexp Real.prec Real.emax ?z) with (Real.fexp z).
        rewrite Hc, Z.eqb_refl. cbn. by apply Z.leb_le.
      * right. split; [|done]. unfold Real.INF. rewrite Ew.
        assert (2 ^ (Real.emax - Real.emin) ≤ 2 ^ (Real.prec - 1) * 2 ^ (ex + n - Real.emin)).
        { rewrite <- pow2_split by lia. apply pow2_le. lia. }
        pose proof (pow2_pos (ex + n - Real.emin) ltac:(lia)). nia.
    + assert (Em : Zpos m1p = 2 ^ Real.prec) by lia.
      destruct (stage2_carry sx m1p (ex + n) Em ltac:(lia))
        as (m' & Em' & Hc & ->).
      assert (Ew : Zpos m1p * (2 ^ n * 2 ^ w)
                   = Zpos m' * 2 ^ (ex + n + 1 - Real.emin)).
      { rewrite Em, Em'.
        rewrite <- !pow2_split by lia. f_equal; lia. }
      destruct (Z.leb_spec (ex + n + 1) (Real.emax - Real.prec)) as [Hb|Hb].
      * left. split.
        { unfold Real.INF. rewrite Ew, Em'. rewrite <- pow2_split by lia.
          apply Z.pow_lt_mono_r; lia. }
        exists m', (ex + n + 1). split; [done|]. split; [|by rewrite Ew].
        unfold bounded, canonical_mantissa.
        change (SpecFloat.fexp Real.prec Real.emax ?z) with (Real.fexp z).
        rewrite Hc, Z.eqb_refl. cbn. by apply Z.leb_le.
      * right. split; [|done]. unfold Real.INF. rewrite Ew, Em'.
        rewrite <- pow2_split by lia. apply pow2_le. lia.
  - (* subnormal range: nothing is cut *)
    assert (En : n = 0) by (subst n; lia).
    assert (Ex : ex = Real.emin) by (subst n; lia).
    assert (Eq : m1 = Zpos mx).
    { rewrite Hexact; subst q; rewrite En; change (2 ^ 0) with 1.
      - apply Z.div_1_r.
      - apply Z.mod_1_r. }
    assert (Ew : w = 0) by (subst w; lia).
    rewrite Eq, En, Ew in *. change (2 ^ 0) with 1 in *.
    exists (Zpos mx). split; [exists (Zpos mx); lia|]. split; [lia|].
    split.
    { replace (d + ex - Real.emin - 1) with (d - 1) by lia. exact D1. }
    assert (Hc : Real.fexp (Zpos (digits2_pos mx) + (ex + 0)) = ex + 0).
    { fold d. rewrite fexp_eq. lia. }
    rewrite (stage2_canonical sx mx (ex + 0) Hc).
    rewrite (proj2 (Z.leb_le _ _)) by lia.
    left. split.
    { unfold Real.INF. assert (2 ^ d ≤ 2 ^ (Real.emax - Real.emin)) by (apply pow2_le; lia).
      lia. }
    exists mx, (ex + 0). split; [done|]. split.
    + unfold bounded, canonical_mantissa.
      change (SpecFloat.fexp Real.prec Real.emax ?z) with (Real.fexp z).
      rewrite Hc, Z.eqb_refl. cbn. apply Z.leb_le. lia.
    + replace (ex + 0 - Real.emin) with 0 by lia. change (2 ^ 0) with 1. lia.
Qed.

(** The same for [binary_round], whatever the exponent of the input. *)
Lemma binary_round_pos sx mx ex :
  Real.emin ≤ ex →
  let dX := Zpos (digits2_pos mx) + ex - Real.emin in
  let u := Z.max (dX - Real.prec) 0 in
  let X := Zpos mx * 2 ^ (ex - Real.emin) in
  let r := binary_round Real.prec Real.emax sx mx ex in
  ∃ R, (∃ t, R = t * 2 ^ u) ∧ X - 2 ^ u < R < X + 2 ^ u ∧ 2 ^ (dX - 1) ≤ R
       ∧ ((R < Real.INF
           ∧ ∃ m e, r = S754_finite sx m e ∧ bounded Real.prec Real.emax m e = true
                    ∧ Zpos m * 2 ^ (e - Real.emin) = R)
          ∨ (Real.INF ≤ R ∧ r = S754_infinity sx)).
Proof.
  intros He. cbn zeta. unfold binary_round.
  change (SpecFloat.fexp Real.prec Real.emax ?z) with (Real.fexp z).
  destruct (shl_align_spec mx ex (Real.fexp (Zpos (digits2_pos mx) + ex)))
    as (mz & ez & -> & Eez & Emz).
  pose proof (fexp_eq (Zpos (digits2_pos mx) + ex)) as Hf.
  assert (Hez : Real.emin ≤ ez) by lia.
  assert (Hdz : Zpos (digits2_pos mz) = Zpos (digits2_pos mx) + (ex - ez))
    by (apply digits2_pos_shift; [lia|done]).
  assert (Hsum : Zpos (digits2_pos mz) + ez = Zpos (digits2_pos mx) + ex)
    by lia.
  pose proof (binary_round_aux_pos sx mz ez Hez) as H. cbn zeta in H.
  rewrite Hsum in H.
  replace (Real.fexp (Zpos (digits2_pos mx) + ex) - Real.emin)
    with (Z.max (Zpos (digits2_pos mx) + ex - Real.emin - Real.prec) 0) in H by lia.
  replace (Zpos mz * 2 ^ (ez - Real.emin)) with (Zpos mx * 2 ^ (ex - Real.emin)) in H.
  - apply H. lia.
  - rewrite Emz, <- Z.mul_assoc, <- pow2_split by lia. do 2 f_equal. lia.
Qed.

(** *** The grid of the finite doubles *)

Lemma bounded_spec m e :
  bounded Real.prec Real.emax m e = true →
  Real.fexp (Zpos (digits2_pos m) + e) = e ∧ Real.emin ≤ e ≤ Real.emax - Real.prec
  ∧ Zpos (digits2_pos m) ≤ Real.prec.
Proof.
  unfold bounded, canonical_mantissa.
  change (SpecFloat.fexp Real.prec Real.emax ?z) with (Real.fexp z).
  intros H. apply andb_true_iff in H as [H1 H2].
  apply Z.eqb_eq in H1. apply Z.leb_le in H2.
  pose proof (fexp_eq (Zpos (digits2_pos m) + e)). lia.
Qed.

Lemma grid_pos_digits C :
  grid_pos C →
  ∃ dC uC t, 0 < dC ∧ 2 ^ (dC - 1) ≤ C < 2 ^ dC ∧ uC = Z.max (dC - Real.prec) 0
             ∧ C = t * 2 ^ uC ∧ C < Real.INF.
Proof.
  intros (m & e & Hb & ->). apply bounded_spec in Hb as (Hc & He & Hd).
  pose proof (digits2_pos_bounds m) as [D1 D2].
  pose proof (fexp_eq (Zpos (digits2_pos m) + e)) as Hf.
  pose proof prec_gt_0.
  exists (Zpos (digits2_pos m) + (e - Real.emin)), (e - Real.emin), (Zpos m).
  pose proof (pow2_pos (e - Real.emin) ltac:(lia)).
  split; [lia|]. split; [|split; [lia|split; [done|]]].
  - replace (Zpos (digits2_pos m) + (e - Real.emin) - 1)
      with (Zpos (digits2_pos m) - 1 + (e - Real.emin)) by lia.
    rewrite !pow2_split by lia. nia.
  - unfold Real.INF.
    assert (2 ^ (Zpos (digits2_pos m)) * 2 ^ (e - Real.emin) ≤ 2 ^ (Real.emax - Real.emin)).
    { rewrite <- pow2_split by lia. apply pow2_le. lia. }
    nia.
Qed.

(** A multiple of the spacing at X that is less than one spacing away from
    X does not cross any grid point. *)
Lemma no_crossing X dX R C :
  0 < dX → 2 ^ (dX - 1) ≤ X < 2 ^ dX →
  (∃ t, R = t * 2 ^ Z.max (dX - Real.prec) 0) →
  X - 2 ^ Z.max (dX - Real.prec) 0 < R < X + 2 ^ Z.max (dX - Real.prec) 0 →
  2 ^ (dX - 1) ≤ R →
  grid_pos C →
  (X ≤ C → R ≤ C) ∧ (C ≤ X → C ≤ R).
Proof.
  intros HdX BX (t & ->) BR LR HC.
  destruct (grid_pos_digits C HC) as (dC & uC & tc & HdC & BC & EuC & EC & _).
  set (u := Z.max (dX - Real.prec) 0) in *.
  assert (Hu : 0 ≤ u) by (subst u; lia).
  pose proof (pow2_pos u Hu) as Pu.
  split; intros Hle.
  - assert (dX ≤ dC) by (eapply (digits_mono X C); eauto).
    assert (Hk : 0 ≤ uC - u) by (subst u; lia).
    assert (E2 : 2 ^ uC = 2 ^ (uC - u) * 2 ^ u).
    { rewrite <- pow2_split by lia. f_equal; lia. }
    rewrite EC, E2 in *. 
    assert (t < tc * 2 ^ (uC - u) + 1) by nia.
    nia.
  - assert (dC ≤ dX) by (eapply (digits_mono C X); eauto).
    destruct (Z.eq_dec uC u) as [Eu|Nu].
    + rewrite EC, Eu in *. assert (tc - 1 < t) by nia. nia.
    + assert (dC ≤ dX - 1) by (subst u; lia).
      assert (2 ^ dC ≤ 2 ^ (dX - 1)) by (apply pow2_le; lia).
      lia.
Qed.

Lemma INF_pos : 0 < Real.INF.
Proof.
  unfold Real.INF. apply pow2_pos. pose proof emin_le. pose proof prec_gt_0. lia.
Qed.

Lemma grid_pos_bounds m e :
  bounded Real.prec Real.emax m e = true → 0 < Zpos m * 2 ^ (e - Real.emin) < Real.INF.
Proof.
  intros Hb.
  destruct (grid_pos_digits (Zpos m * 2 ^ (e - Real.emin)))
    as (dC & uC & t & ? & ? & ? & ? & ?); [by exists m, e|].
  apply bounded_spec in Hb as (_ & ? & _).
  pose proof (pow2_pos (e - Real.emin) ltac:(lia)). lia.
Qed.

(** *** [SFcompare] is the comparison of the units *)

(** Of two canonical doubles the one with the smaller exponent is the
    smaller. *)
Lemma canonical_lt m1 e1 m2 e2 :
  bounded Real.prec Real.emax m1 e1 = true → bounded Real.prec Real.emax m2 e2 = true →
  e1 < e2 → Zpos m1 * 2 ^ (e1 - Real.emin) < Zpos m2 * 2 ^ (e2 - Real.emin).
Proof.
  intros H1 H2 Hlt.
  apply bounded_spec in H1 as (C1 & B1 & D1).
  apply bounded_spec in H2 as (C2 & B2 & D2).
  pose proof (fexp_eq (Zpos (digits2_pos m2) + e2)) as Hf.
  assert (Ed : Zpos (digits2_pos m2) = Real.prec) by lia.
  pose proof (digits2_pos_bounds m1) as [_ U1].
  pose proof (digits2_pos_bounds m2) as [L2 _]. rewrite Ed in L2.
  pose proof prec_gt_0.
  assert (2 ^ Zpos (digits2_pos m1) ≤ 2 ^ Real.prec) by (apply pow2_le; lia).
  assert (E : 2 ^ Real.prec * 2 ^ (e1 - Real.emin)
              = 2 ^ (Real.prec - 1) * 2 ^ (e1 + 1 - Real.emin)).
  { rewrite <- !pow2_split by lia. f_equal; lia. }
  assert (2 ^ (e1 + 1 - Real.emin) ≤ 2 ^ (e2 - Real.emin)) by (apply pow2_le; lia).
  pose proof (pow2_pos (e1 - Real.emin) ltac:(lia)).
  pose proof (pow2_pos (Real.prec - 1) ltac:(lia)).
  pose proof (pow2_pos (e2 - Real.emin) ltac:(lia)).
  nia.
Qed.

Lemma compare_pos m1 e1 m2 e2 :
  bounded Real.prec Real.emax m1 e1 = true → bounded Real.prec Real.emax m2 e2 = true →
  match e1 ?= e2 with
  | Lt => Lt
  | Gt => Gt
  | Eq => Pos.compare_cont Eq m1 m2
  end = (Zpos m1 * 2 ^ (e1 - Real.emin) ?= Zpos m2 * 2 ^ (e2 - Real.emin)).
Proof.
  intros H1 H2. destruct (Z.compare_spec e1 e2) as [->|Hlt|Hgt].
  - pose proof (bounded_spec _ _ H2) as (_ & ? & _).
    rewrite <- Zmult_compare_compat_r by (apply Z.lt_gt, pow2_pos; lia).
    reflexivity.
  - symmetry. apply Z.compare_lt_iff. by apply canonical_lt.
  - symmetry. apply Z.compare_gt_iff. by apply canonical_lt.
Qed.

Ltac solve_compare :=
  first [ apply Z.compare_lt_iff; lia | apply Z.compare_gt_iff; lia
        | apply Z.compare_eq_iff; lia ].

Lemma compare_ord a b :
  Real.valid a = true → Real.valid b = true →
  Real.is_nan a = false → Real.is_nan b = false →
  SFcompare a b = Some (Real.ord a ?= Real.ord b).
Proof.
  pose proof INF_pos as HI.
  destruct a as [sa|sa| |sa ma ea], b as [sb|sb| |sb mb eb];
    cbn [Real.valid valid_binary Real.is_nan SFcompare Real.ord]; intros Ha Hb Na Nb;
    try done; f_equal; symmetry;
    try pose proof (grid_pos_bounds _ _ Ha);
    try pose proof (grid_pos_bounds _ _ Hb);
    try (destruct sa); try (destruct sb); cbn [cond_Zopp];
    try solve_compare.
  - rewrite Z.compare_opp. rewrite <- (compare_pos mb eb ma ea) by done.
    rewrite (Z.compare_antisym eb ea).
    destruct (eb ?= ea); cbn [CompOpp]; try done.
    by rewrite (Pos.compare_cont_antisym ma mb Eq).
  - symmetry. by apply compare_pos.
Qed.

Lemma grid_opp C : grid C → grid (- C).
Proof.
  unfold grid. rewrite Z.opp_involutive. intros [->|[H|H]]; auto.
Qed.

Lemma grid_ord c : Real.valid c = true → Real.is_finite c = true → grid (Real.ord c).
Proof.
  destruct c as [s|s| |s m e]; cbn; try done; intros Hb _.
  - by left.
  - right. destruct s; cbn [cond_Zopp].
    + right. rewrite Z.opp_involutive. by exists m, e.
    + left. by exists m, e.
Qed.

Lemma brackets_refl S : brackets S S.
Proof. by intros C _. Qed.

Lemma brackets_opp S r : brackets S r → brackets (- S) (- r).
Proof.
  intros H C HC. destruct (H (- C) (grid_opp C HC)). lia.
Qed.

Lemma brackets_cond_Zopp s S r :
  brackets S r → brackets (cond_Zopp s S) (cond_Zopp s r).
Proof. destruct s; [apply brackets_opp|done]. Qed.

(** *** Rounding never crosses a double *)

Lemma binary_round_ord sx m e :
  Real.emin ≤ e →
  Real.valid (binary_round Real.prec Real.emax sx m e) = true
  ∧ Real.is_nan (binary_round Real.prec Real.emax sx m e) = false
  ∧ brackets (cond_Zopp sx (Zpos m * 2 ^ (e - Real.emin)))
      (Real.ord (binary_round Real.prec Real.emax sx m e)).
Proof.
  intros He.
  destruct (binary_round_pos sx m e He) as (R & Ht & BR & LR & Hr).
  pose proof (digits2_pos_bounds m) as [D1 D2].
  set (dX := Zpos (digits2_pos m) + e - Real.emin) in *.
  set (X := Zpos m * 2 ^ (e - Real.emin)) in *.
  assert (HdX : 0 < dX) by (subst dX; lia).
  pose proof (pow2_pos (e - Real.emin) ltac:(lia)) as Pw.
  assert (BX : 2 ^ (dX - 1) ≤ X < 2 ^ dX).
  { subst dX X.
    replace (Zpos (digits2_pos m) + e - Real.emin - 1)
      with (Zpos (digits2_pos m) - 1 + (e - Real.emin)) by lia.
    replace (Zpos (digits2_pos m) + e - Real.emin)
      with (Zpos (digits2_pos m) + (e - Real.emin)) by lia.
    rewrite !pow2_split by lia. nia. }
  pose proof (pow2_pos (dX - 1) ltac:(lia)) as Pd.
  pose proof INF_pos as HI.
  assert (Core : ∀ R', (R < Real.INF → R' = R) → (Real.INF ≤ R → R' = Real.INF) →
                       brackets X R').
  { intros R' Hfin Hinf C [->|[HC|HC]].
    - destruct (Z_lt_le_dec R Real.INF); [rewrite Hfin by done|rewrite Hinf by done];
        lia.
    - destruct (grid_pos_digits C HC) as (? & ? & ? & ? & ? & ? & ? & ?).
      destruct (no_crossing X dX R C HdX BX Ht BR LR HC) as [U L].
      destruct (Z_lt_le_dec R Real.INF); [rewrite Hfin by done|rewrite Hinf by done];
        (split; intros HXC; [specialize (U HXC)|specialize (L HXC)]; lia).
    - destruct (grid_pos_digits (- C) HC) as (? & ? & ? & ? & ? & ? & ? & ?).
      destruct (Z_lt_le_dec R Real.INF); [rewrite Hfin by done|rewrite Hinf by done];
        lia. }
  destruct Hr as [(Hlt & m' & e' & -> & Hb & EV)|(Hge & ->)].
  - split; [exact Hb|]. split; [done|]. cbn [Real.ord].
    apply brackets_cond_Zopp, Core; lia.
  - split; [done|]. split; [done|]. cbn [Real.ord].
    apply brackets_cond_Zopp, Core; lia.
Qed.

Lemma binary_normalize_ord M e :
  Real.emin ≤ e →
  Real.valid (binary_normalize Real.prec Real.emax M e false) = true
  ∧ Real.is_nan (binary_normalize Real.prec Real.emax M e false) = false
  ∧ brackets (M * 2 ^ (e - Real.emin))
      (Real.ord (binary_normalize Real.prec Real.emax M e false)).
Proof.
  intros He. destruct M as [|m|m]; cbn [binary_normalize].
  - repeat split; try done; apply brackets_refl.
  - apply (binary_round_ord false m e He).
  - replace (Z.neg m * 2 ^ (e - Real.emin))
      with (cond_Zopp true (Zpos m * 2 ^ (e - Real.emin))) by (cbn; lia).
    apply (binary_round_ord true m e He).
Qed.

Lemma shl_align_fst mx ex ez :
  ez ≤ ex → Zpos (fst (shl_align mx ex ez)) = Zpos mx * 2 ^ (ex - ez).
Proof.
  intros H. destruct (shl_align_spec mx ex ez) as (mz & ez' & -> & -> & E).
  cbn [fst]. rewrite E. do 2 f_equal. lia.
Qed.

Lemma ord_finite_shift s m e ez :
  Real.emin ≤ ez → ez ≤ e →
  cond_Zopp s (Zpos (fst (shl_align m e ez))) * 2 ^ (ez - Real.emin)
  = Real.ord (S754_finite s m e).
Proof.
  intros H1 H2. rewrite shl_align_fst by done. cbn [Real.ord].
  replace (e - Real.emin) with (e - ez + (ez - Real.emin)) by lia.
  rewrite pow2_split by lia. destruct s; cbn [cond_Zopp]; lia.
Qed.

Lemma valid_finite_emin s m e : Real.valid (S754_finite s m e) = true → Real.emin ≤ e.
Proof. cbn. intros H. apply bounded_spec in H. lia. Qed.

(** The sum and the difference of two finite doubles are doubles, not NaN,
    and bracket the exact sum and difference. *)
Lemma SFadd_ord x y :
  Real.valid x = true → Real.valid y = true →
  Real.is_finite x = true → Real.is_finite y = true →
  Real.valid (SFadd Real.prec Real.emax x y) = true
  ∧ Real.is_nan (SFadd Real.prec Real.emax x y) = false
  ∧ brackets (Real.ord x + Real.ord y) (Real.ord (SFadd Real.prec Real.emax x y)).
Proof.
  destruct x as [sx|sx| |sx mx ex], y as [sy|sy| |sy my ey];
    intros Vx Vy Fx Fy; try discriminate Fx; try discriminate Fy.
  - destruct sx, sy; cbn; repeat split; try done; apply brackets_refl.
  - cbn [SFadd]. change (Real.ord (S754_zero sx)) with 0. rewrite Z.add_0_l.
    repeat split; try done; apply brackets_refl.
  - cbn [SFadd]. change (Real.ord (S754_zero sy)) with 0. rewrite Z.add_0_r.
    repeat split; try done; apply brackets_refl.
  - pose proof (valid_finite_emin _ _ _ Vx). pose proof (valid_finite_emin _ _ _ Vy).
    cbn [SFadd].
    rewrite <- (ord_finite_shift sx mx ex (Z.min ex ey)) by lia.
    rewrite <- (ord_finite_shift sy my ey (Z.min ex ey)) by lia.
    rewrite <- Z.mul_add_distr_r.
    apply binary_normalize_ord. lia.
Qed.

Lemma SFsub_ord x y :
  Real.valid x = true → Real.valid y = true →
  Real.is_finite x = true → Real.is_finite y = true →
  Real.valid (SFsub Real.prec Real.emax x y) = true
  ∧ Real.is_nan (SFsub Real.prec Real.emax x y) = false
  ∧ brackets (Real.ord x - Real.ord y) (Real.ord (SFsub Real.prec Real.emax x y)).
Proof.
  destruct x as [sx|sx| |sx mx ex], y as [sy|sy| |sy my ey];
    intros Vx Vy Fx Fy; try discriminate Fx; try discriminate Fy.
  - destruct sx, sy; cbn; repeat split; try done; apply brackets_refl.
  - cbn [SFsub]. split; [exact Vy|]. split; [done|].
    replace (Real.ord (S754_zero sx) - Real.ord (S754_finite sy my ey))
      with (Real.ord (S754_finite (negb sy) my ey))
      by (destruct sy; cbn; lia).
    apply brackets_refl.
  - cbn [SFsub]. change (Real.ord (S754_zero sy)) with 0. rewrite Z.sub_0_r.
    repeat split; try done; apply brackets_refl.
  - pose proof (valid_finite_emin _ _ _ Vx). pose proof (valid_finite_emin _ _ _ Vy).
    cbn [SFsub].
    rewrite <- (ord_finite_shift sx mx ex (Z.min ex ey)) by lia.
    rewrite <- (ord_finite_shift sy my ey (Z.min ex ey)) by lia.
    rewrite <- Z.mul_sub_distr_r.
    apply binary_normalize_ord. lia.
Qed.

(** ** The order of the doubles *)

Lemma le_ord a b :
  Real.valid a = true → Real.valid b = true →
  Real.is_nan a = false → Real.is_nan b = false →
  Real.le a b = (Real.ord a <=? Real.ord b).
Proof.
  intros. unfold Real.le, SFleb. rewrite compare_ord by done.
  unfold Z.leb. by destruct (_ ?= _).
Qed.

Lemma grid_bounds C : grid C → - Real.INF < C < Real.INF.
Proof.
  pose proof INF_pos.
  intros [->|[(m & e & Hb & ->)|(m & e & Hb & E)]].
  - lia.
  - pose proof (grid_pos_bounds m e Hb). lia.
  - pose proof (grid_pos_bounds m e Hb). lia.
Qed.

Lemma ord_bounds x :
  Real.valid x = true → - Real.INF ≤ Real.ord x ≤ Real.INF.
Proof.
  pose proof INF_pos. destruct x as [s|s| |s m e]; cbn [Real.ord]; intros Hv.
  - lia.
  - destruct s; cbn [cond_Zopp]; lia.
  - lia.
  - pose proof (grid_pos_bounds m e Hv). destruct s; cbn [cond_Zopp]; lia.
Qed.

Lemma rabs_ord x :
  Real.valid (rabs x) = Real.valid x
  ∧ Real.is_nan (rabs x) = Real.is_nan x
  ∧ (Real.valid x = true → Real.ord (rabs x) = Z.abs (Real.ord x)).
Proof.
  pose proof INF_pos.
  destruct x as [s|s| |s m e]; (split; [done|]); (split; [done|]);
    cbn [rabs SFabs Real.ord]; intros Hv; try done.
  - destruct s; cbn [cond_Zopp]; lia.
  - pose proof (grid_pos_bounds m e Hv). destruct s; cbn [cond_Zopp]; lia.
Qed.

Lemma nonneg_ord d :
  Real.valid d = true → Real.le Real.zero d = true →
  Real.is_nan d = false ∧ 0 ≤ Real.ord d.
Proof.
  intros Hv Hle.
  assert (Hn : Real.is_nan d = false) by (by destruct d).
  split; [done|]. rewrite le_ord in Hle by done. by apply Z.leb_le in Hle.
Qed.

(** The two re-centred bounds [f - d] and [f + d], for a finite force and a
    variation that is not negative. *)
Lemma recentred_facts f d :
  Real.valid f = true → Real.is_finite f = true →
  Real.valid d = true → Real.le Real.zero d = true →
  let lo := Real.sub f d in
  let hi := Real.add f d in
  Real.valid lo = true ∧ Real.is_nan lo = false
  ∧ Real.valid hi = true ∧ Real.is_nan hi = false
  ∧ Real.ord lo ≤ Real.ord f ≤ Real.ord hi
  ∧ (if Real.is_finite d
     then (∀ C, grid C → Real.ord f - Real.ord d ≤ C → Real.ord lo ≤ C)
          ∧ (∀ C, grid C → C ≤ Real.ord f + Real.ord d → C ≤ Real.ord hi)
     else Real.ord lo = - Real.INF ∧ Real.ord hi = Real.INF).
Proof.
  intros Vf Ff Vd Hd. cbn zeta.
  destruct (nonneg_ord d Vd Hd) as [Nd Pd].
  pose proof (ord_bounds f Vf) as Bf. pose proof INF_pos as HI.
  destruct (Real.is_finite d) eqn:Fd.
  - destruct (SFsub_ord f d Vf Vd Ff Fd) as (V1 & N1 & B1).
    destruct (SFadd_ord f d Vf Vd Ff Fd) as (V2 & N2 & B2).
    pose proof (grid_ord f Vf Ff) as Gf.
    repeat split; try done.
    + apply (B1 _ Gf). lia.
    + apply (B2 _ Gf). lia.
    + intros C GC. apply (B1 C GC).
    + intros C GC. apply (B2 C GC).
  - destruct d as [s|s| |s m e]; try done.
    destruct s; [cbn in Pd; lia|].
    destruct f as [sf|sf| |sf mf ef]; try done; cbn; repeat split; try done;
      try lia.
    all: destruct sf; cbn [cond_Zopp];
      pose proof (grid_pos_bounds mf ef Vf); lia.
Qed.

(** A bound that the rate limit keeps is finite and closer to the force
    than the variation. *)
Lemma kept_close b f d :
  Real.valid b = true → Real.is_nan b = false →
  Real.valid f = true → Real.is_finite f = true →
  Real.valid d = true → Real.is_nan d = false →
  Real.ge (rabs (Real.sub b f)) d = false →
  Real.is_finite b = true
  ∧ (Real.is_finite d = true →
     - Real.ord d < Real.ord b - Real.ord f < Real.ord d).
Proof.
  intros Vb Nb Vf Ff Vd Nd Hk.
  pose proof (ord_bounds d Vd) as Bd.
  destruct (Real.is_finite b) eqn:Fb.
  - split; [done|]. intros Fd.
    destruct (SFsub_ord b f Vb Vf Fb Ff) as (Vt & Nt & Bt).
    destruct (rabs_ord (Real.sub b f)) as (Va & Na & Oa).
    unfold Real.sub in *. rewrite Vt in Va. rewrite Nt in Na.
    specialize (Oa Vt). unfold Real.ge in Hk.
    change (SFleb ?x ?y) with (Real.le x y) in Hk.
    rewrite le_ord in Hk by done. apply Z.leb_gt in Hk. rewrite Oa in Hk.
    pose proof (grid_ord d Vd Fd) as Gd.
    destruct (Bt _ Gd) as [_ L]. destruct (Bt _ (grid_opp _ Gd)) as [U _].
    split.
    + destruct (Z_lt_le_dec (- Real.ord d) (Real.ord b - Real.ord f));
        [done|]. specialize (U ltac:(lia)). lia.
    + destruct (Z_lt_le_dec (Real.ord b - Real.ord f) (Real.ord d));
        [done|]. specialize (L ltac:(lia)). lia.
  - exfalso. destruct b as [s|s| |s m e]; try done.
    assert (E : rabs (Real.sub (S754_infinity s) f) = S754_infinity false).
    { by destruct f. }
    rewrite E in Hk. unfold Real.ge in Hk.
    change (SFleb ?x ?y) with (Real.le x y) in Hk.
    rewrite le_ord in Hk by done. apply Z.leb_gt in Hk. cbn in Hk. lia.
Qed.

(** One axis of the rate limit leaves the floor below the ceiling. *)
Lemma new_min_le_new_max c a b f :
  let d := getValue (d_maxForceVariation c) in
  Real.valid d = true → Real.le Real.zero d = true →
  Real.valid f = true → Real.is_finite f = true →
  (isSet (d_minForce c) = true →
   Real.valid a = true ∧ Real.is_nan a = false) →
  (isSet (d_maxForce c) = true →
   Real.valid b = true ∧ Real.is_nan b = false) →
  (isSet (d_minForce c) = true → isSet (d_maxForce c) = true →
   Real.le a b = true) →
  Real.le (new_min c a f) (new_max c b f) = true.
Proof.
  intros d Vd Hd Vf Ff Ha Hb Hab.
  destruct (nonneg_ord d Vd Hd) as [Nd Pd].
  destruct (recentred_facts f d Vf Ff Vd Hd)
    as (V1 & N1 & V2 & N2 & O12 & Hbr).
  pose proof (grid_ord f Vf Ff) as Gf.
  unfold new_min, new_max. fold d.
  destruct (Real.ge (rabs (Real.sub a f)) d || negb (isSet (d_minForce c)))
    eqn:Cmin;
  destruct (Real.ge (rabs (Real.sub b f)) d || negb (isSet (d_maxForce c)))
    eqn:Cmax.
  - rewrite le_ord by done. apply Z.leb_le. lia.
  - apply orb_false_iff in Cmax as [Kb Sb]. apply negb_false_iff in Sb.
    destruct (Hb Sb) as [Vb Nb].
    destruct (kept_close b f d Vb Nb Vf Ff Vd Nd Kb) as [Fb Cb].
    rewrite le_ord by done. apply Z.leb_le.
    destruct (Real.is_finite d).
    + destruct Hbr as [U _]. apply U; [by apply grid_ord|].
      specialize (Cb eq_refl). lia.
    + destruct Hbr as [-> _].
      pose proof (grid_bounds _ (grid_ord b Vb Fb)). lia.
  - apply orb_false_iff in Cmin as [Ka Sa]. apply negb_false_iff in Sa.
    destruct (Ha Sa) as [Va Na].
    destruct (kept_close a f d Va Na Vf Ff Vd Nd Ka) as [Fa Ca].
    rewrite le_ord by done. apply Z.leb_le.
    destruct (Real.is_finite d).
    + destruct Hbr as [_ L]. apply L; [by apply grid_ord|].
      specialize (Ca eq_refl). lia.
    + destruct Hbr as [_ ->].
      pose proof (grid_bounds _ (grid_ord a Va Fa)). lia.
  - apply orb_false_iff in Cmin as [_ Sa]. apply negb_false_iff in Sa.
    apply orb_false_iff in Cmax as [_ Sb]. apply negb_false_iff in Sb.
    by apply Hab.
Qed.

Lemma lookup_broadcast_min c v i a :
  v !! i = Some a →
  broadcast_min c v !! i
  = Some (if isSet (d_minForce c) then getValue (d_minForce c) else a).
Proof.
  intros H. unfold broadcast_min.
  destruct (isSet _); [by rewrite lookup_broadcast, H|done].
Qed.

Lemma lookup_broadcast_max c v i b :
  v !! i = Some b →
  broadcast_max c v !! i
  = Some (if isSet (d_maxForce c) then getValue (d_maxForce c) else b).
Proof.
  intros H. unfold broadcast_max.
  destruct (isSet _); [by rewrite lookup_broadcast, H|done].
Qed.

(** C8 (amended). On an initialised actuator whose parameters are doubles,
    if [maxForceVariation] is set or both [minForce] and [maxForce] are,
    the variation is not negative, a set [minForce] or [maxForce] is not
    NaN, [minForce <= maxForce] when both are set and, when the variation is
    set, every force is finite, then [updateLimit] returns and leaves
    [lambdaMin[i] <= lambdaMax[i]] on every axis [i] below the dimension. *)
Theorem updateLimit_bounds_ordered c s :
  initialised s →
  isSet (d_maxForceVariation c) = true
  ∨ (isSet (d_minForce c) = true ∧ isSet (d_maxForce c) = true) →
  (isSet (d_maxForceVariation c) = true →
   Real.valid (getValue (d_maxForceVariation c)) = true
   ∧ Real.le Real.zero (getValue (d_maxForceVariation c)) = true) →
  (isSet (d_minForce c) = true →
   Real.valid (getValue (d_minForce c)) = true
   ∧ Real.is_nan (getValue (d_minForce c)) = false) →
  (isSet (d_maxForce c) = true →
   Real.valid (getValue (d_maxForce c)) = true
   ∧ Real.is_nan (getValue (d_maxForce c)) = false) →
  (isSet (d_minForce c) = true → isSet (d_maxForce c) = true →
   Real.le (getValue (d_minForce c)) (getValue (d_maxForce c)) = true) →
  (isSet (d_maxForceVariation c) = true →
   ∀ i f, d_force s !! i = Some f →
          Real.valid f = true ∧ Real.is_finite f = true) →
  ∃ s',
    updateLimit c s = Some s'
    ∧ ∀ i, (i < m_dim s')%nat →
        ∃ lo hi, m_lambdaMin s' !! i = Some lo
                 ∧ m_lambdaMax s' !! i = Some hi
                 ∧ Real.le lo hi = true.
Proof.
  intros Hi Hset Hd Hm HM HmM Hf. exists (limits c s).
  split; [by apply updateLimit_initialised|].
  destruct (limits_frame c s) as (-> & _). intros i Hlt.
  pose proof Hi as (_ & Lf & La & Lb & _).
  destruct (lookup_lt_is_Some_2 (d_force s) i) as [f Ef]; [lia|].
  destruct (lookup_lt_is_Some_2 (m_lambdaMin s) i) as [a Ea]; [lia|].
  destruct (lookup_lt_is_Some_2 (m_lambdaMax s) i) as [b Eb]; [lia|].
  pose proof (lookup_broadcast_min c _ _ _ Ea) as Ea'.
  pose proof (lookup_broadcast_max c _ _ _ Eb) as Eb'.
  destruct (isSet (d_maxForceVariation c)) eqn:Sd.
  - destruct (limits_axis c s i _ _ f Sd Hi Hlt Ea' Eb' Ef) as [E1 E2].
    eexists _, _. split; [exact E1|]. split; [exact E2|].
    destruct (Hd eq_refl) as [Vd Pd]. destruct (Hf eq_refl i f Ef) as [Vf Ff].
    apply new_min_le_new_max; try done.
    + intros Sm. rewrite Sm. by apply Hm.
    + intros SM. rewrite SM. by apply HM.
    + intros Sm SM. rewrite Sm, SM. by apply HmM.
  - destruct Hset as [?|[Sm SM]]; [done|].
    unfold limits. rewrite Sd. state_simpl. rewrite Ea', Eb', Sm, SM.
    eexists _, _. split; [done|]. split; [done|]. by apply HmM.
Qed.

Lemma updateLimit_bounds_ordered_witness :
  ∃ s',
    updateLimit scenario_config (one_axis (Real.of_Z 3)) = Some s'
    ∧ ∃ lo hi, m_lambdaMin s' !! 0%nat = Some lo
               ∧ m_lambdaMax s' !! 0%nat = Some hi
               ∧ Real.le lo hi = true.
Proof.
  destruct (updateLimit_bounds_ordered scenario_config
              (one_axis (Real.of_Z 3))) as (s' & E & H).
  - apply initialised_one_axis.
  - left. reflexivity.
  - intros _. split; vm_compute; reflexivity.
  - intros _. split; vm_compute; reflexivity.
  - intros _. split; vm_compute; reflexivity.
  - intros _ _. vm_compute. reflexivity.
  - intros _ i f Hf. destruct i as [|i]; [|destruct i; discriminate Hf].
    injection Hf as <-. split; vm_compute; reflexivity.
  - exists s'. split; [exact E|]. apply H.
    assert (Hd : m_dim s' = 1%nat).
    { revert E. vm_compute. intros E. injection E as <-. reflexivity. }
    rewrite Hd. lia.
Defined.

(** The finiteness of the force cannot be dropped: with only the rate
    limit set and a force that is NaN, both bounds of the axis are NaN. *)
Lemma updateLimit_nan_force :
  ∃ s',
    updateLimit rate_only_config (one_axis S754_nan) = Some s'
    ∧ m_lambdaMin s' !! 0%nat = Some S754_nan
    ∧ m_lambdaMax s' !! 0%nat = Some S754_nan
    ∧ Real.le S754_nan S754_nan = false.
Proof. eexists. repeat split; vm_compute; reflexivity. Qed.

(** * Further properties of the component *)

(** ** [reinit] in closed form *)

Lemma State_eq (s t : State) :
  m_dim s = m_dim t → m_hasEpsilon s = m_hasEpsilon t →
  m_epsilon s = m_epsilon t → m_hasLambdaInit s = m_hasLambdaInit t →
  m_lambdaInit s = m_lambdaInit t → m_lambdaMax s = m_lambdaMax t →
  m_lambdaMin s = m_lambdaMin t → m_hasLambdaMax s = m_hasLambdaMax t →
  m_hasLambdaMin s = m_hasLambdaMin t → d_force s = d_force t →
  d_displacement s = d_displacement t →
  d_constraintIndex s = d_constraintIndex t → m_nbLines s = m_nbLines t →
  s = t.
Proof. destruct s, t. cbn. by intros -> -> -> -> -> -> -> -> -> -> -> -> ->. Qed.

Lemma initData_eq c s :
  initData_defined c s → initData c s = Some (initData_value c s).
Proof.
  unfold initData, initData_value, initData_defined. cbn zeta.
  fold (dimension c). intros H.
  destruct (isSet (d_initForce c)).
  - destruct (m_lambdaInit s) as [|x l] eqn:El; [by destruct H|].
    destruct (isSet (d_epsilon c)); state_simpl; rewrite El;
      rewrite (vec_set_Some (x :: l) 0) by (cbn; lia);
      cbn [mbind option_bind]; state_simpl; by rewrite resize_with_nil.
  - destruct (isSet (d_epsilon c)); state_simpl; cbn [mbind option_bind];
      state_simpl; by rewrite resize_with_nil.
Qed.

Lemma initialised_initData_value c s : initialised (initData_value c s).
Proof.
  assert (Hd : dimension c = 1%nat ∨ dimension c = Deriv_total_size).
  { unfold dimension. destruct (Real.lt _ _); auto. }
  unfold initData_value, initialised. cbn zeta.
  destruct (isSet (d_epsilon c)), (isSet (d_initForce c)); state_simpl;
    unfold vec_resize; by rewrite !length_resize_with, length_replicate.
Qed.

Lemma reinit_eq c s :
  initData_defined c s → reinit c s = Some (reinit_value c s).
Proof.
  intros H. unfold reinit, reinit_value. rewrite (initData_eq c s H).
  cbn [mbind option_bind]. rewrite initLimit_unfold.
  apply updateLimit_initialised, initialised_limit_flags,
    initialised_initData_value.
Qed.

Lemma initialised_reinit_value c s : initialised (reinit_value c s).
Proof.
  apply initialised_limits, initialised_limit_flags,
    initialised_initData_value.
Qed.

(** The bounds [limits] computes only depend on the force, the dimension and
    the bounds it starts from; nothing else is changed. *)
Lemma limits_fields c s :
  m_dim (limits c s) = m_dim s
  ∧ m_hasEpsilon (limits c s) = m_hasEpsilon s
  ∧ m_epsilon (limits c s) = m_epsilon s
  ∧ m_hasLambdaInit (limits c s) = m_hasLambdaInit s
  ∧ m_lambdaInit (limits c s) = m_lambdaInit s
  ∧ m_lambdaMax (limits c s)
    = ceiling_after c (m_dim s) (d_force s) (m_lambdaMax s)
  ∧ m_lambdaMin (limits c s)
    = floor_after c (m_dim s) (d_force s) (m_lambdaMin s)
  ∧ m_hasLambdaMax (limits c s) = m_hasLambdaMax s
  ∧ m_hasLambdaMin (limits c s) = m_hasLambdaMin s
  ∧ d_force (limits c s) = d_force s
  ∧ d_displacement (limits c s) = d_displacement s
  ∧ d_constraintIndex (limits c s) = d_constraintIndex s
  ∧ m_nbLines (limits c s) = m_nbLines s.
Proof.
  unfold limits, floor_after, ceiling_after.
  by destruct (isSet (d_maxForceVariation c)).
Qed.

Lemma length_floor_after c dim force v :
  length (floor_after c dim force v) = length v.
Proof.
  unfold floor_after. destruct (isSet (d_maxForceVariation c));
    by rewrite ?length_recentered, length_broadcast_min.
Qed.

Lemma length_ceiling_after c dim force v :
  length (ceiling_after c dim force v) = length v.
Proof.
  unfold ceiling_after. destruct (isSet (d_maxForceVariation c));
    by rewrite ?length_recentered, length_broadcast_max.
Qed.

Lemma floor_after_idem c dim force v :
  floor_after c dim force (floor_after c dim force v)
  = floor_after c dim force v.
Proof.
  unfold floor_after. destruct (isSet (d_maxForceVariation c)).
  - apply recentered_min_idem.
  - unfold broadcast_min. destruct (isSet (d_minForce c)); [|done].
    apply broadcast_idem.
Qed.

Lemma ceiling_after_idem c dim force v :
  ceiling_after c dim force (ceiling_after c dim force v)
  = ceiling_after c dim force v.
Proof.
  unfold ceiling_after. destruct (isSet (d_maxForceVariation c)).
  - apply recentered_max_idem.
  - unfold broadcast_max. destruct (isSet (d_maxForce c)); [|done].
    apply broadcast_idem.
Qed.

Lemma resize_with_id {A} (x : A) (v : list A) :
  resize_with (length v) x v = v.
Proof.
  unfold resize_with. rewrite firstn_all, Nat.sub_diag. cbn.
  apply app_nil_r.
Qed.

Lemma vec_resize_id n v : length v = n → vec_resize n v = v.
Proof. intros <-. apply resize_with_id. Qed.

Lemma dimension_pos c : (0 < dimension c)%nat.
Proof.
  unfold dimension, Deriv_total_size. destruct (Real.lt _ _); lia.
Qed.

Lemma limit_flags_fields c s :
  m_dim (limit_flags c s) = m_dim s
  ∧ m_hasEpsilon (limit_flags c s) = m_hasEpsilon s
  ∧ m_epsilon (limit_flags c s) = m_epsilon s
  ∧ m_hasLambdaInit (limit_flags c s) = m_hasLambdaInit s
  ∧ m_lambdaInit (limit_flags c s) = m_lambdaInit s
  ∧ m_lambdaMax (limit_flags c s) = m_lambdaMax s
  ∧ m_lambdaMin (limit_flags c s) = m_lambdaMin s
  ∧ m_hasLambdaMax (limit_flags c s)
    = isSet (d_maxForce c) || isSet (d_maxForceVariation c)
      || m_hasLambdaMax s
  ∧ m_hasLambdaMin (limit_flags c s)
    = isSet (d_minForce c) || isSet (d_maxForceVariation c)
      || m_hasLambdaMin s
  ∧ d_force (limit_flags c s) = d_force s
  ∧ d_displacement (limit_flags c s) = d_displacement s
  ∧ d_constraintIndex (limit_flags c s) = d_constraintIndex s
  ∧ m_nbLines (limit_flags c s) = m_nbLines s.
Proof.
  unfold limit_flags.
  by destruct (isSet (d_maxForce c)), (isSet (d_minForce c)),
    (isSet (d_maxForceVariation c)).
Qed.

Lemma initData_value_fields c s :
  let d := dimension c in
  m_dim (initData_value c s) = d
  ∧ m_hasEpsilon (initData_value c s) = isSet (d_epsilon c) || m_hasEpsilon s
  ∧ m_epsilon (initData_value c s)
    = (if isSet (d_epsilon c) then getValue (d_epsilon c) else m_epsilon s)
  ∧ m_hasLambdaInit (initData_value c s)
    = isSet (d_initForce c) || m_hasLambdaInit s
  ∧ m_lambdaInit (initData_value c s)
    = vec_resize d
        (if isSet (d_initForce c)
         then <[0%nat:=getValue (d_initForce c)]> (m_lambdaInit s)
         else m_lambdaInit s)
  ∧ m_lambdaMax (initData_value c s) = vec_resize d (m_lambdaMax s)
  ∧ m_lambdaMin (initData_value c s) = vec_resize d (m_lambdaMin s)
  ∧ m_hasLambdaMax (initData_value c s) = m_hasLambdaMax s
  ∧ m_hasLambdaMin (initData_value c s) = m_hasLambdaMin s
  ∧ d_force (initData_value c s) = replicate d (getValue (d_initForce c))
  ∧ d_displacement (initData_value c s) = d_displacement s
  ∧ d_constraintIndex (initData_value c s) = d_constraintIndex s
  ∧ m_nbLines (initData_value c s) = m_nbLines s.
Proof.
  unfold initData_value. cbn zeta.
  by destruct (isSet (d_epsilon c)), (isSet (d_initForce c)).
Qed.

(** Every member after [reinit], from the parameters and the members
    before it. *)
Lemma reinit_value_fields c s :
  let d := dimension c in
  m_dim (reinit_value c s) = d
  ∧ m_hasEpsilon (reinit_value c s) = isSet (d_epsilon c) || m_hasEpsilon s
  ∧ m_epsilon (reinit_value c s)
    = (if isSet (d_epsilon c) then getValue (d_epsilon c) else m_epsilon s)
  ∧ m_hasLambdaInit (reinit_value c s)
    = isSet (d_initForce c) || m_hasLambdaInit s
  ∧ m_lambdaInit (reinit_value c s)
    = vec_resize d
        (if isSet (d_initForce c)
         then <[0%nat:=getValue (d_initForce c)]> (m_lambdaInit s)
         else m_lambdaInit s)
  ∧ m_lambdaMax (reinit_value c s)
    = ceiling_after c d (replicate d (getValue (d_initForce c)))
        (vec_resize d (m_lambdaMax s))
  ∧ m_lambdaMin (reinit_value c s)
    = floor_after c d (replicate d (getValue (d_initForce c)))
        (vec_resize d (m_lambdaMin s))
  ∧ m_hasLambdaMax (reinit_value c s)
    = isSet (d_maxForce c) || isSet (d_maxForceVariation c)
      || m_hasLambdaMax s
  ∧ m_hasLambdaMin (reinit_value c s)
    = isSet (d_minForce c) || isSet (d_maxForceVariation c)
      || m_hasLambdaMin s
  ∧ d_force (reinit_value c s) = replicate d (getValue (d_initForce c))
  ∧ d_displacement (reinit_value c s) = d_displacement s
  ∧ d_constraintIndex (reinit_value c s) = d_constraintIndex s
  ∧ m_nbLines (reinit_value c s) = m_nbLines s.
Proof.
  cbn zeta. unfold reinit_value.
  destruct (limits_fields c (limit_flags c (initData_value c s)))
    as (-> & -> & -> & -> & -> & -> & -> & -> & -> & -> & -> & -> & ->).
  destruct (limit_flags_fields c (initData_value c s))
    as (-> & -> & -> & -> & -> & -> & -> & -> & -> & -> & -> & -> & ->).
  destruct (initData_value_fields c s)
    as (-> & -> & -> & -> & -> & -> & -> & -> & -> & -> & -> & -> & ->).
  done.
Qed.

(** X1. [reinit] is idempotent: a second [reinit] with the same parameters
    returns the state the first one returned. *)
Theorem reinit_idempotent c s s1 :
  reinit c s = Some s1 → reinit c s1 = Some s1.
Proof.
  intros H. pose proof (reinit_inv _ _ _ H) as Hd.
  rewrite (reinit_eq c s Hd) in H. injection H as <-.
  pose proof (initialised_reinit_value c s) as Hi.
  rewrite (reinit_eq c _ (initialised_initData_defined c _ Hi)). f_equal.
  pose proof (dimension_pos c) as Hpos.
  destruct (reinit_value_fields c (reinit_value c s))
    as (E1 & E2 & E3 & E4 & E5 & E6 & E7 & E8 & E9 & E10 & E11 & E12 & E13).
  destruct (reinit_value_fields c s)
    as (F1 & F2 & F3 & F4 & F5 & F6 & F7 & F8 & F9 & F10 & F11 & F12 & F13).
  cbn zeta in *.
  apply State_eq.
  - by rewrite E1, F1.
  - rewrite E2, F2. by destruct (isSet (d_epsilon c)).
  - rewrite E3, F3. by destruct (isSet (d_epsilon c)).
  - rewrite E4, F4. by destruct (isSet (d_initForce c)).
  - rewrite E5. destruct (isSet (d_initForce c)) eqn:SI.
    + assert (H0 : m_lambdaInit (reinit_value c s) !! 0%nat
                   = Some (getValue (d_initForce c))).
      { rewrite F5. destruct (m_lambdaInit s) as [|x l] eqn:El;
          [by destruct (Hd SI)|].
        destruct (dimension c); [lia|done]. }
      rewrite (list_insert_id _ _ _ H0).
      destruct Hi as (_ & _ & _ & _ & Ll).
      rewrite F1 in Ll. by apply vec_resize_id.
    + destruct Hi as (_ & _ & _ & _ & Ll).
      rewrite F1 in Ll. by apply vec_resize_id.
  - rewrite E6. destruct Hi as (_ & _ & _ & Lb & _). rewrite F1 in Lb.
    rewrite (vec_resize_id _ _ Lb), F6. apply ceiling_after_idem.
  - rewrite E7. destruct Hi as (_ & _ & La & _ & _). rewrite F1 in La.
    rewrite (vec_resize_id _ _ La), F7. apply floor_after_idem.
  - rewrite E8, F8.
    by destruct (isSet (d_maxForce c)), (isSet (d_maxForceVariation c)).
  - rewrite E9, F9.
    by destruct (isSet (d_minForce c)), (isSet (d_maxForceVariation c)).
  - by rewrite E10, F10.
  - by rewrite E11.
  - by rewrite E12.
  - by rewrite E13.
Qed.

Lemma reinit_idempotent_witness :
  ∃ s1, reinit scenario_config (one_axis (Real.of_Z 3)) = Some s1
        ∧ reinit scenario_config s1 = Some s1.
Proof.
  eexists. split; [vm_compute; reflexivity|].
  apply (reinit_idempotent scenario_config (one_axis (Real.of_Z 3))).
  vm_compute. reflexivity.
Defined.

Lemma lookup_vec_resize n v j :
  (j < n)%nat → vec_resize n v !! j = Some (default Real.zero (v !! j)).
Proof.
  intros Hj. unfold vec_resize, resize_with.
  destruct (decide (j < length v)%nat) as [Hl|Hl].
  - rewrite lookup_app_l by (rewrite length_take; lia).
    rewrite lookup_take_lt by lia.
    by destruct (lookup_lt_is_Some_2 v j Hl) as [x ->].
  - rewrite lookup_app_r by (rewrite length_take; lia).
    rewrite length_take, lookup_replicate_2 by lia.
    by rewrite (lookup_ge_None_2 v j) by lia.
Qed.

(** X2. After every [reinit] that returns, [hasLambdaMax] holds exactly if
    it held before or [maxForce] or [maxForceVariation] is set, and
    [hasLambdaMin] exactly if it held before or [minForce] or
    [maxForceVariation] is set: the rate limit alone declares both bounds,
    and no flag is ever lowered.  [hasEpsilon] and [hasLambdaInit] are
    raised in the same way by [penalty] and [initForce], and [epsilon] takes
    the penalty only when it is set. *)
Theorem reinit_flags c s s' :
  reinit c s = Some s' →
  m_hasLambdaMax s'
  = isSet (d_maxForce c) || isSet (d_maxForceVariation c) || m_hasLambdaMax s
  ∧ m_hasLambdaMin s'
    = isSet (d_minForce c) || isSet (d_maxForceVariation c)
      || m_hasLambdaMin s
  ∧ m_hasEpsilon s' = isSet (d_epsilon c) || m_hasEpsilon s
  ∧ m_epsilon s'
    = (if isSet (d_epsilon c) then getValue (d_epsilon c) else m_epsilon s)
  ∧ m_hasLambdaInit s' = isSet (d_initForce c) || m_hasLambdaInit s.
Proof.
  intros H. pose proof (reinit_inv _ _ _ H) as Hd.
  rewrite (reinit_eq c s Hd) in H. injection H as <-.
  destruct (reinit_value_fields c s)
    as (_ & F2 & F3 & F4 & _ & _ & _ & F8 & F9 & _).
  done.
Qed.

Lemma reinit_flags_witness :
  ∃ s', reinit rate_only_config blank = Some s'
        ∧ m_hasLambdaMax s' = true ∧ m_hasLambdaMin s' = true
        ∧ m_hasEpsilon s' = false ∧ m_hasLambdaInit s' = false.
Proof.
  destruct (reinit rate_only_config blank) as [s'|] eqn:E;
    [|vm_compute in E; discriminate E].
  exists s'. split; [reflexivity|].
  destruct (reinit_flags rate_only_config blank s' E)
    as (H1 & H2 & H3 & _ & H5).
  repeat split; assumption.
Defined.

(** X3. After a [reinit] with [initForce] set, every entry of [force] is
    [initForce] but only entry 0 of [lambdaInit] is: the entries of
    [lambdaInit] from 1 on keep what they held, or are 0 where the vector
    had to grow. *)
Theorem reinit_lambdaInit c s s' :
  reinit c s = Some s' →
  isSet (d_initForce c) = true →
  m_lambdaInit s' !! 0%nat = Some (getValue (d_initForce c))
  ∧ (∀ j, (1 ≤ j < m_dim s')%nat →
       m_lambdaInit s' !! j = Some (default Real.zero (m_lambdaInit s !! j)))
  ∧ (∀ j, (j < m_dim s')%nat →
       d_force s' !! j = Some (getValue (d_initForce c))).
Proof.
  intros H SI. pose proof (reinit_inv _ _ _ H) as Hd.
  rewrite (reinit_eq c s Hd) in H. injection H as <-.
  destruct (reinit_value_fields c s)
    as (F1 & _ & _ & _ & F5 & _ & _ & _ & _ & F10 & _).
  cbn zeta in *. rewrite F1, F5, F10, SI.
  pose proof (dimension_pos c) as Hpos.
  split; [|split].
  - rewrite lookup_vec_resize by done.
    destruct (m_lambdaInit s) as [|x l] eqn:El;
      [exfalso; by apply (Hd SI)|done].
  - intros j Hj. rewrite lookup_vec_resize by lia.
    by rewrite list_lookup_insert_ne by lia.
  - intros j Hj. by apply lookup_replicate_2.
Qed.

Lemma reinit_lambdaInit_witness :
  ∃ s',
    reinit (with_initForce (is_set (Real.of_Z 2)) free_config)
      (one_axis Real.zero) = Some s'
    ∧ m_lambdaInit s' = [Real.of_Z 2; Real.zero; Real.zero]
    ∧ d_force s' = [Real.of_Z 2; Real.of_Z 2; Real.of_Z 2].
Proof.
  eexists. split; [vm_compute; reflexivity|].
  destruct (reinit_lambdaInit
              (with_initForce (is_set (Real.of_Z 2)) free_config)
              (one_axis Real.zero) _ eq_refl eq_refl) as (_ & _ & _).
  split; vm_compute; reflexivity.
Defined.

(** ** [updateLimit] on any state *)

Lemma axes_lengths s :
  axes_in_range s
  ↔ let n := if decide (1 < m_dim s)%nat then Deriv_total_size else 1%nat in
    (n ≤ length (m_lambdaMin s) ∧ n ≤ length (m_lambdaMax s)
     ∧ n ≤ length (d_force s))%nat.
Proof.
  unfold axes_in_range, axes, Deriv_total_size. cbn zeta.
  case_decide; split.
  - intros Hr. specialize (Hr 2%nat). rewrite elem_of_seq in Hr. lia.
  - intros Hr j Hj. rewrite elem_of_seq in Hj. lia.
  - intros Hr. specialize (Hr 0%nat).
    rewrite list_elem_of_singleton in Hr. lia.
  - intros Hr j Hj. rewrite list_elem_of_singleton in Hj. lia.
Qed.

(** X4. [updateLimit] indexes outside a vector exactly when
    [maxForceVariation] is set and [lambdaMin], [lambdaMax] or [force] has
    fewer entries than the axes visited, three when [m_dim > 1] and one
    otherwise; without [maxForceVariation] it returns on every state, empty
    vectors included. *)
Theorem updateLimit_defined c s :
  is_Some (updateLimit c s)
  ↔ (isSet (d_maxForceVariation c) = true →
     let n := if decide (1 < m_dim s)%nat then 3%nat else 1%nat in
     (n ≤ length (m_lambdaMin s) ∧ n ≤ length (m_lambdaMax s)
      ∧ n ≤ length (d_force s))%nat).
Proof.
  split.
  - intros [s' H] Hd. apply updateLimit_inv in H as [_ H].
    by apply axes_lengths, H.
  - intros H. rewrite updateLimit_limits; [done|].
    intros Hd. by apply axes_lengths, H.
Qed.

(** X5. [updateLimit] writes nothing but [lambdaMin] and [lambdaMax], and
    keeps their lengths. *)
Theorem updateLimit_frame c s s' :
  updateLimit c s = Some s' →
  s' = with_bounds (m_lambdaMin s') (m_lambdaMax s') s
  ∧ length (m_lambdaMin s') = length (m_lambdaMin s)
  ∧ length (m_lambdaMax s') = length (m_lambdaMax s).
Proof.
  intros H. apply updateLimit_inv in H as [-> _].
  destruct (limits_fields c s)
    as (E1 & E2 & E3 & E4 & E5 & E6 & E7 & E8 & E9 & E10 & E11 & E12 & E13).
  split.
  - by apply State_eq.
  - by rewrite E6, E7, length_floor_after, length_ceiling_after.
Qed.

Lemma updateLimit_frame_witness :
  ∃ s',
    updateLimit scenario_config (one_axis (Real.of_Z 3)) = Some s'
    ∧ s' = with_bounds [Real.of_Z 2] [Real.of_Z 4] (one_axis (Real.of_Z 3)).
Proof.
  eexists. split; [vm_compute; reflexivity|].
  destruct (updateLimit_frame scenario_config (one_axis (Real.of_Z 3)) _
              eq_refl) as (E & _).
  vm_compute. reflexivity.
Defined.

(** X6. The rule of the rate limit holds axis by axis, in free mode as in
    fixed mode and whatever is set: on every axis visited, the floor becomes
    [force - variation] when [minForce] is not set or when the floor found
    there ([minForce] itself when it is set) is at least the variation away
    from the force, and stays otherwise; the ceiling likewise with
    [maxForce] and [force + variation].  The axes are independent: each
    uses its own force. *)
Theorem updateLimit_axis c s s' j :
  updateLimit c s = Some s' →
  isSet (d_maxForceVariation c) = true →
  (j < (if decide (1 < m_dim s)%nat then 3 else 1))%nat →
  let delta := getValue (d_maxForceVariation c) in
  ∃ a b f,
    m_lambdaMin s !! j = Some a ∧ m_lambdaMax s !! j = Some b
    ∧ d_force s !! j = Some f
    ∧ m_lambdaMin s' !! j
      = Some (let a' := if isSet (d_minForce c) then getValue (d_minForce c)
                        else a in
              if Real.ge (rabs (Real.sub a' f)) delta
                 || negb (isSet (d_minForce c))
              then Real.sub f delta else a')
    ∧ m_lambdaMax s' !! j
      = Some (let b' := if isSet (d_maxForce c) then getValue (d_maxForce c)
                        else b in
              if Real.ge (rabs (Real.sub b' f)) delta
                 || negb (isSet (d_maxForce c))
              then Real.add f delta else b').
Proof.
  intros H Hd Hj delta. apply updateLimit_inv in H as [-> Hr].
  specialize (Hr Hd).
  assert (Hin : j ∈ axes s).
  { unfold axes, Deriv_total_size. case_decide.
    - apply elem_of_seq. lia.
    - apply list_elem_of_singleton. lia. }
  destruct (Hr j Hin) as (La & Lb & Lf).
  apply lookup_lt_is_Some_2 in La as [a Ea].
  apply lookup_lt_is_Some_2 in Lb as [b Eb].
  apply lookup_lt_is_Some_2 in Lf as [f Ef].
  exists a, b, f. split; [done|]. split; [done|]. split; [done|].
  unfold limits. rewrite Hd. state_simpl. rewrite !lookup_recentered.
  rewrite (lookup_broadcast_min c _ _ _ Ea), (lookup_broadcast_max c _ _ _ Eb).
  rewrite Ef, (bool_decide_eq_true_2 _ Hin). done.
Qed.

Lemma updateLimit_axis_witness :
  ∃ s',
    updateLimit scenario_config
      (set_d_force [Real.of_Z 3; Real.of_Z (-20); Real.of_dec 95 1] three_axes)
    = Some s'
    ∧ m_lambdaMin s' = [Real.of_Z 2; Real.of_Z (-21); Real.of_dec 85 1]
    ∧ m_lambdaMax s' = [Real.of_Z 4; Real.of_Z (-19); Real.of_Z 10].
Proof.
  destruct (updateLimit scenario_config _) as [s'|] eqn:E;
    [|vm_compute in E; discriminate E].
  exists s'. split; [reflexivity|].
  destruct (updateLimit_axis scenario_config _ s' 2 E)
    as (a & b & f & _); [reflexivity|vm_compute; lia|].
  revert E. vm_compute. intros E. injection E as <-.
  split; reflexivity.
Defined.

Lemma broadcast_replicate x v : broadcast x v = replicate (length v) x.
Proof.
  unfold broadcast. induction v as [|y v IH]; [done|]. cbn. by rewrite IH.
Qed.

Lemma axes_of_elem dim j :
  dim = 1%nat ∨ dim = Deriv_total_size → j ∈ axes_of dim ↔ (j < dim)%nat.
Proof.
  unfold axes_of, Deriv_total_size. intros [->| ->].
  - rewrite decide_False by lia. rewrite list_elem_of_singleton. lia.
  - rewrite decide_True by lia. rewrite elem_of_seq. lia.
Qed.

Lemma floor_after_memoryless c dim force v w :
  dim = 1%nat ∨ dim = Deriv_total_size →
  length force = dim → length v = dim → length w = dim →
  isSet (d_maxForceVariation c) = true ∨ isSet (d_minForce c) = true →
  floor_after c dim force v = floor_after c dim force w.
Proof.
  intros Hdim Lf Lv Lw Hset. unfold floor_after, broadcast_min.
  destruct (isSet (d_minForce c)) eqn:Sm.
  - by rewrite !broadcast_replicate, Lv, Lw.
  - destruct Hset as [Sd|?]; [|done]. rewrite Sd.
    apply list_eq; intros j. rewrite !lookup_recentered.
    destruct (decide (j < dim)%nat) as [Hj|Hj].
    + rewrite bool_decide_eq_true_2 by (by apply axes_of_elem).
      destruct (lookup_lt_is_Some_2 force j) as [f ->]; [lia|].
      destruct (lookup_lt_is_Some_2 v j) as [a ->]; [lia|].
      destruct (lookup_lt_is_Some_2 w j) as [a' ->]; [lia|].
      cbn. unfold new_min. rewrite Sm. cbn. by rewrite !orb_true_r.
    + by rewrite !lookup_ge_None_2 by lia.
Qed.

Lemma ceiling_after_memoryless c dim force v w :
  dim = 1%nat ∨ dim = Deriv_total_size →
  length force = dim → length v = dim → length w = dim →
  isSet (d_maxForceVariation c) = true ∨ isSet (d_maxForce c) = true →
  ceiling_after c dim force v = ceiling_after c dim force w.
Proof.
  intros Hdim Lf Lv Lw Hset. unfold ceiling_after, broadcast_max.
  destruct (isSet (d_maxForce c)) eqn:Sm.
  - by rewrite !broadcast_replicate, Lv, Lw.
  - destruct Hset as [Sd|?]; [|done]. rewrite Sd.
    apply list_eq; intros j. rewrite !lookup_recentered.
    destruct (decide (j < dim)%nat) as [Hj|Hj].
    + rewrite bool_decide_eq_true_2 by (by apply axes_of_elem).
      destruct (lookup_lt_is_Some_2 force j) as [f ->]; [lia|].
      destruct (lookup_lt_is_Some_2 v j) as [a ->]; [lia|].
      destruct (lookup_lt_is_Some_2 w j) as [a' ->]; [lia|].
      cbn. unfold new_max. rewrite Sm. cbn. by rewrite !orb_true_r.
    + by rewrite !lookup_ge_None_2 by lia.
Qed.

(** X7. The bounds have no memory: on initialised actuators of the same
    dimension and the same force, [updateLimit] leaves the same [lambdaMin]
    as soon as [maxForceVariation] or [minForce] is set, and the same
    [lambdaMax] as soon as [maxForceVariation] or [maxForce] is set,
    whatever the bounds were before. *)
Theorem updateLimit_memoryless c s t :
  initialised s → initialised t →
  m_dim s = m_dim t → d_force s = d_force t →
  ∃ s' t',
    updateLimit c s = Some s' ∧ updateLimit c t = Some t'
    ∧ (isSet (d_maxForceVariation c) = true ∨ isSet (d_minForce c) = true →
       m_lambdaMin s' = m_lambdaMin t')
    ∧ (isSet (d_maxForceVariation c) = true ∨ isSet (d_maxForce c) = true →
       m_lambdaMax s' = m_lambdaMax t').
Proof.
  intros Hs Ht Hd Hf. exists (limits c s), (limits c t).
  split; [by apply updateLimit_initialised|].
  split; [by apply updateLimit_initialised|].
  destruct (limits_fields c s) as (_ & _ & _ & _ & _ & -> & -> & _).
  destruct (limits_fields c t) as (_ & _ & _ & _ & _ & -> & -> & _).
  destruct Hs as (D1 & F1 & A1 & B1 & _). destruct Ht as (D2 & F2 & A2 & B2 & _).
  rewrite <- Hd, <- Hf in *.
  split; intros Hset.
  - by apply floor_after_memoryless.
  - by apply ceiling_after_memoryless.
Qed.

Lemma updateLimit_memoryless_witness :
  ∃ s' t',
    updateLimit rate_only_config (one_axis (Real.of_Z 3)) = Some s'
    ∧ updateLimit rate_only_config
        (with_bounds [Real.of_Z 7] [Real.of_Z 8] (one_axis (Real.of_Z 3)))
      = Some t'
    ∧ m_lambdaMin s' = m_lambdaMin t' ∧ m_lambdaMax s' = m_lambdaMax t'.
Proof.
  destruct (updateLimit_memoryless rate_only_config
              (one_axis (Real.of_Z 3))
              (with_bounds [Real.of_Z 7] [Real.of_Z 8]
                 (one_axis (Real.of_Z 3))))
    as (s' & t' & E1 & E2 & H1 & H2).
  - apply initialised_one_axis.
  - unfold initialised. cbn. tauto.
  - reflexivity.
  - reflexivity.
  - exists s', t'. split; [exact E1|]. split; [exact E2|].
    split; [apply H1|apply H2]; left; reflexivity.
Defined.

(** ** The band of the rate limit *)

Lemma le_refl_ord x :
  Real.valid x = true → Real.is_nan x = false → Real.le x x = true.
Proof. intros. rewrite le_ord by done. apply Z.leb_le. lia. Qed.

Lemma new_min_in_band c a f :
  let d := getValue (d_maxForceVariation c) in
  Real.valid d = true → Real.le Real.zero d = true →
  Real.valid f = true → Real.is_finite f = true →
  (isSet (d_minForce c) = true →
   Real.valid a = true ∧ Real.is_nan a = false) →
  Real.le (Real.sub f d) (new_min c a f) = true.
Proof.
  intros d Vd Hd Vf Ff Ha.
  destruct (nonneg_ord d Vd Hd) as [Nd Pd].
  destruct (recentred_facts f d Vf Ff Vd Hd)
    as (V1 & N1 & V2 & N2 & O12 & Hbr).
  unfold new_min. fold d.
  destruct (Real.ge (rabs (Real.sub a f)) d || negb (isSet (d_minForce c)))
    eqn:Cmin.
  - by apply le_refl_ord.
  - apply orb_false_iff in Cmin as [Ka Sa]. apply negb_false_iff in Sa.
    destruct (Ha Sa) as [Va Na].
    destruct (kept_close a f d Va Na Vf Ff Vd Nd Ka) as [Fa Ca].
    rewrite le_ord by done. apply Z.leb_le.
    destruct (Real.is_finite d).
    + destruct Hbr as [U _]. apply U; [by apply grid_ord|].
      specialize (Ca eq_refl). lia.
    + destruct Hbr as [-> _].
      pose proof (grid_bounds _ (grid_ord a Va Fa)). lia.
Qed.

Lemma new_max_in_band c b f :
  let d := getValue (d_maxForceVariation c) in
  Real.valid d = true → Real.le Real.zero d = true →
  Real.valid f = true → Real.is_finite f = true →
  (isSet (d_maxForce c) = true →
   Real.valid b = true ∧ Real.is_nan b = false) →
  Real.le (new_max c b f) (Real.add f d) = true.
Proof.
  intros d Vd Hd Vf Ff Hb.
  destruct (nonneg_ord d Vd Hd) as [Nd Pd].
  destruct (recentred_facts f d Vf Ff Vd Hd)
    as (V1 & N1 & V2 & N2 & O12 & Hbr).
  unfold new_max. fold d.
  destruct (Real.ge (rabs (Real.sub b f)) d || negb (isSet (d_maxForce c)))
    eqn:Cmax.
  - by apply le_refl_ord.
  - apply orb_false_iff in Cmax as [Kb Sb]. apply negb_false_iff in Sb.
    destruct (Hb Sb) as [Vb Nb].
    destruct (kept_close b f d Vb Nb Vf Ff Vd Nd Kb) as [Fb Cb].
    rewrite le_ord by done. apply Z.leb_le.
    destruct (Real.is_finite d).
    + destruct Hbr as [_ L]. apply L; [by apply grid_ord|].
      specialize (Cb eq_refl). lia.
    + destruct Hbr as [_ ->].
      pose proof (grid_bounds _ (grid_ord b Vb Fb)). lia.
Qed.

(** X8. The rate limit is never wider than the variation: on an
    initialised actuator with [maxForceVariation] set to a double that is
    not negative, finite forces and no NaN among the set [minForce] and
    [maxForce], [updateLimit] leaves on every axis
    [force - variation <= lambdaMin] and [lambdaMax <= force + variation],
    the two sides being the rounded difference and sum. *)
Theorem updateLimit_rate_band c s :
  initialised s →
  isSet (d_maxForceVariation c) = true →
  Real.valid (getValue (d_maxForceVariation c)) = true →
  Real.le Real.zero (getValue (d_maxForceVariation c)) = true →
  (isSet (d_minForce c) = true →
   Real.valid (getValue (d_minForce c)) = true
   ∧ Real.is_nan (getValue (d_minForce c)) = false) →
  (isSet (d_maxForce c) = true →
   Real.valid (getValue (d_maxForce c)) = true
   ∧ Real.is_nan (getValue (d_maxForce c)) = false) →
  (∀ i f, d_force s !! i = Some f →
          Real.valid f = true ∧ Real.is_finite f = true) →
  ∃ s',
    updateLimit c s = Some s'
    ∧ ∀ i, (i < m_dim s')%nat →
        ∃ f lo hi,
          d_force s' !! i = Some f
          ∧ m_lambdaMin s' !! i = Some lo
          ∧ m_lambdaMax s' !! i = Some hi
          ∧ Real.le (Real.sub f (getValue (d_maxForceVariation c))) lo = true
          ∧ Real.le hi (Real.add f (getValue (d_maxForceVariation c))) = true.
Proof.
  intros Hi Sd Vd Pd Hm HM Hf. exists (limits c s).
  split; [by apply updateLimit_initialised|].
  destruct (limits_frame c s) as (-> & -> & _). intros i Hlt.
  pose proof Hi as (_ & Lf & La & Lb & _).
  destruct (lookup_lt_is_Some_2 (d_force s) i) as [f Ef]; [lia|].
  destruct (lookup_lt_is_Some_2 (m_lambdaMin s) i) as [a Ea]; [lia|].
  destruct (lookup_lt_is_Some_2 (m_lambdaMax s) i) as [b Eb]; [lia|].
  pose proof (lookup_broadcast_min c _ _ _ Ea) as Ea'.
  pose proof (lookup_broadcast_max c _ _ _ Eb) as Eb'.
  destruct (limits_axis c s i _ _ f Sd Hi Hlt Ea' Eb' Ef) as [E1 E2].
  destruct (Hf i f Ef) as [Vf Ff].
  eexists f, _, _. split; [done|]. split; [exact E1|]. split; [exact E2|].
  split.
  - apply new_min_in_band; try done. intros Sm. rewrite Sm. by apply Hm.
  - apply new_max_in_band; try done. intros SM. rewrite SM. by apply HM.
Qed.

Lemma updateLimit_rate_band_witness :
  ∃ s',
    updateLimit scenario_config (one_axis (Real.of_dec 95 1)) = Some s'
    ∧ m_lambdaMin s' = [Real.of_dec 85 1] ∧ m_lambdaMax s' = [Real.of_Z 10]
    ∧ Real.le (Real.sub (Real.of_dec 95 1) (Real.of_Z 1)) (Real.of_dec 85 1)
      = true
    ∧ Real.le (Real.of_Z 10) (Real.add (Real.of_dec 95 1) (Real.of_Z 1))
      = true.
Proof.
  destruct (updateLimit_rate_band scenario_config
              (one_axis (Real.of_dec 95 1))) as (s' & E & H).
  - apply initialised_one_axis.
  - reflexivity.
  - vm_compute. reflexivity.
  - vm_compute. reflexivity.
  - intros _. split; vm_compute; reflexivity.
  - intros _. split; vm_compute; reflexivity.
  - intros i f Hf. destruct i as [|i]; [|destruct i; discriminate Hf].
    injection Hf as <-. split; vm_compute; reflexivity.
  - exists s'. split; [exact E|].
    revert E. vm_compute. intros E. injection E as <-.
    repeat split; reflexivity.
Defined.

(** ** [storeResults] and the bounds of the next iteration *)

(** X9. With only [maxForceVariation] set, after [storeResults] on an
    initialised actuator ([delta] not empty, [lambda] covering the axes)
    the state handed to the base class has, on every axis,
    [force = lambda[j]], [lambdaMin = lambda[j] - variation] and
    [lambdaMax = lambda[j] + variation]: the band of the next iteration is
    centred on the multiplier just stored. *)
Theorem storeResults_rate_only base c lambda delta s d0 :
  initialised s →
  delta !! 0%nat = Some d0 →
  (m_dim s ≤ length lambda)%nat →
  isSet (d_maxForceVariation c) = true →
  isSet (d_minForce c) = false →
  isSet (d_maxForce c) = false →
  ∃ s2,
    storeResults base c lambda delta s = Some (base c lambda delta s2)
    ∧ ∀ j, (j < m_dim s)%nat →
        ∃ l, lambda !! j = Some l
             ∧ d_force s2 !! j = Some l
             ∧ m_lambdaMin s2 !! j
               = Some (Real.sub l (getValue (d_maxForceVariation c)))
             ∧ m_lambdaMax s2 !! j
               = Some (Real.add l (getValue (d_maxForceVariation c))).
Proof.
  intros Hi Hd Hl Sd Sm SM.
  rewrite (storeResults_Some base c lambda delta s d0 Hi Hd Hl).
  pose proof (initialised_stored lambda d0 s Hi) as Hi1.
  set (s1 := set_d_force _ _) in *.
  exists (limits c s1). split; [done|]. intros j Hj.
  destruct (lookup_lt_is_Some_2 lambda j) as [l El]; [lia|].
  pose proof Hi as (_ & Lf & La & Lb & _).
  assert (Ef : d_force s1 !! j = Some l).
  { subst s1. state_simpl. rewrite lookup_recentered.
    rewrite bool_decide_eq_true_2 by (by apply initialised_axes).
    destruct (lookup_lt_is_Some_2 (d_force s) j) as [f ->]; [lia|].
    by rewrite El. }
  destruct (lookup_lt_is_Some_2 (m_lambdaMin s1) j) as [a Ea];
    [subst s1; state_simpl; lia|].
  destruct (lookup_lt_is_Some_2 (m_lambdaMax s1) j) as [b Eb];
    [subst s1; state_simpl; lia|].
  pose proof (lookup_broadcast_min c _ _ _ Ea) as Ea'.
  pose proof (lookup_broadcast_max c _ _ _ Eb) as Eb'.
  destruct (limits_axis c s1 j _ _ l Sd Hi1 Hj Ea' Eb' Ef) as [E1 E2].
  exists l. split; [done|].
  destruct (limits_frame c s1) as (_ & -> & _). split; [done|].
  rewrite E1, E2. unfold new_min, new_max. rewrite Sm, SM. cbn [negb].
  by rewrite !orb_true_r.
Qed.

Lemma storeResults_rate_only_witness :
  ∃ s2,
    storeResults no_base_store rate_only_config [Real.of_Z 5]
      [Real.of_dec 2 1] (one_axis Real.zero) = Some s2
    ∧ d_force s2 = [Real.of_Z 5]
    ∧ m_lambdaMin s2 = [Real.of_Z 4] ∧ m_lambdaMax s2 = [Real.of_Z 6].
Proof.
  destruct (storeResults_rate_only no_base_store rate_only_config
              [Real.of_Z 5] [Real.of_dec 2 1] (one_axis Real.zero)
              (Real.of_dec 2 1)) as (s2 & E & _);
    [apply initialised_one_axis|reflexivity|cbn; lia|reflexivity..|].
  exists s2. split; [exact E|].
  revert E. vm_compute. intros E. injection E as <-.
  repeat split; reflexivity.
Defined.

(** X10. [storeResults] keeps the shape of an initialised actuator: the
    state it hands to the base class is initialised, of the same dimension,
    and differs from the one it started from only in [force],
    [displacement], [lambdaMin] and [lambdaMax]. *)
Theorem storeResults_frame base c lambda delta s s' :
  initialised s →
  storeResults base c lambda delta s = Some s' →
  ∃ s2,
    s' = base c lambda delta s2
    ∧ initialised s2
    ∧ s2 = set_d_force (d_force s2)
             (set_d_displacement (d_displacement s2)
                (with_bounds (m_lambdaMin s2) (m_lambdaMax s2) s)).
Proof.
  intros Hi H.
  assert (Hs : is_Some (storeResults base c lambda delta s)) by (by exists s').
  unfold storeResults in Hs.
  destruct (store_fields lambda delta s) as [s1|] eqn:E1;
    [|by destruct Hs].
  destruct (store_fields_inv lambda delta s s1 Hi E1) as [Hd Hl].
  destruct delta as [|d0 delta]; [done|].
  rewrite (storeResults_Some base c lambda (d0 :: delta) s d0) in H by done.
  injection H as <-. eexists. split; [done|].
  split.
  - apply initialised_limits, initialised_stored, Hi.
  - set (s1' := set_d_force _ _).
    destruct (limits_fields c s1')
      as (E & E2 & E3 & E4 & E5 & _ & _ & E8 & E9 & E10 & E11 & E12 & E13).
    by apply State_eq.
Qed.

Lemma storeResults_frame_witness :
  ∃ s2,
    storeResults no_base_store scenario_config [Real.of_Z 5]
      [Real.of_dec 2 1] (one_axis Real.zero) = Some s2
    ∧ initialised s2
    ∧ m_lambdaInit s2 = m_lambdaInit (one_axis Real.zero).
Proof.
  eexists. split; [vm_compute; reflexivity|].
  destruct (storeResults_frame no_base_store scenario_config [Real.of_Z 5]
              [Real.of_dec 2 1] (one_axis Real.zero) _
              (initialised_one_axis Real.zero) eq_refl)
    as (s2 & E & Hi & _).
  split; [|reflexivity]. unfold initialised. cbn. tauto.
Defined.

(** ** [getConstraintViolation] *)

(** A loop of unchecked writes of [x] at the places [g j]. *)
Lemma for_each_set {A} (g : nat → nat) (x : A) js v :
  for_each js (fun j v => vec_set v (g j) x) v
  = if decide (Forall (fun j => (g j < length v)%nat) js)
    then Some (imap (fun i a => if bool_decide (i ∈ g <$> js) then x else a) v)
    else None.
Proof.
  revert v. induction js as [|j js IH]; intros v; cbn [for_each].
  - rewrite decide_True by constructor. f_equal.
    apply list_eq. intros i. rewrite list_lookup_imap.
    by destruct (v !! i).
  - destruct (decide (g j < length v)%nat) as [Hj|Hj].
    + rewrite (vec_set_Some v (g j) x Hj). cbn [mbind option_bind].
      rewrite IH, length_insert.
      destruct (decide (Forall _ js)) as [Hf|Hf].
      * rewrite decide_True by (by constructor). f_equal.
        apply list_eq. intros i. rewrite !list_lookup_imap.
        rewrite fmap_cons, list_lookup_insert.
        case_decide as Hi.
        -- destruct Hi as [<- _].
           destruct (lookup_lt_is_Some_2 v (g j) Hj) as [a ->]. cbn.
           rewrite (bool_decide_eq_true_2 (g j ∈ g j :: _)) by (by left).
           by destruct (bool_decide _).
        -- destruct (v !! i) as [a|] eqn:Ei; [|done]. cbn. f_equal.
           assert (i ≠ g j).
           { intros ->. apply Hi. split; [done|].
             by apply lookup_lt_is_Some_1. }
           apply (f_equal (fun b : bool => if b then x else a)).
           apply bool_decide_ext. rewrite elem_of_cons.
           split; [by right|by intros [?|?]].
      * rewrite decide_False; [done|]. intros Hc. by inversion Hc.
    + destruct (vec_set v (g j) x) as [v'|] eqn:Ev.
      { by apply vec_set_inv in Ev as [? _]. }
      cbn [mbind option_bind].
      rewrite decide_False; [done|]. intros Hc. by inversion Hc.
Qed.

(** X11. [getConstraintViolation] returns exactly when every row of the
    actuator is inside the violation vector; it then resets these rows to
    zero, keeps every other entry and the length of the vector. *)
Theorem getConstraintViolation_rows s resV :
  (is_Some (getConstraintViolation s resV)
   ↔ ∀ r, r ∈ constraint_rows s → (Z.to_nat r < length resV)%nat)
  ∧ ∀ resV',
      getConstraintViolation s resV = Some resV' →
      length resV' = length resV
      ∧ ∀ i, resV' !! i
             = if bool_decide (i ∈ Z.to_nat <$> constraint_rows s)
               then Some Real.zero else resV !! i.
Proof.
  unfold getConstraintViolation, constraint_rows, BaseVector_set, for_upto.
  cbn zeta. case_decide as Hd.
  - rewrite (for_each_set
               (fun j => Z.to_nat (wrap32 (d_constraintIndex s + Z.of_nat j)))).
    rewrite <- list_fmap_compose.
    set (g := fun j => Z.to_nat (wrap32 (d_constraintIndex s + Z.of_nat j))).
    change (Z.to_nat ∘ _) with g.
    split.
    + case_decide as Hf; split.
      * intros _ r Hr. apply list_elem_of_fmap in Hr as (j & -> & Hj).
        rewrite Forall_forall in Hf. by apply (Hf j).
      * by eexists.
      * by intros [? ?].
      * intros Hr. exfalso. apply Hf, Forall_forall. intros j Hj.
        apply (Hr (wrap32 (d_constraintIndex s + Z.of_nat j))).
        apply list_elem_of_fmap. by exists j.
    + intros resV' H. case_decide as Hf; [|done]. injection H as <-.
      split; [by rewrite length_imap|]. intros i.
      rewrite list_lookup_imap.
      destruct (decide (i ∈ g <$> seq 0 Deriv_total_size)) as [Hi|Hi].
      * rewrite !(bool_decide_eq_true_2 _ Hi).
        apply list_elem_of_fmap in Hi as (j & -> & Hj).
        rewrite Forall_forall in Hf.
        by destruct (lookup_lt_is_Some_2 resV (g j) (Hf j Hj)) as [a ->].
      * rewrite !(bool_decide_eq_false_2 _ Hi). by destruct (resV !! i).
  - unfold vec_set. split.
    + case_decide as Hj; split.
      * intros _ r Hr. apply list_elem_of_singleton in Hr. by subst r.
      * by eexists.
      * by intros [? ?].
      * intros Hr. exfalso. apply Hj, Hr. by apply list_elem_of_singleton.
    + intros resV' H. case_decide as Hj; [|done]. injection H as <-.
      split; [by rewrite length_insert|]. intros i.
      rewrite list_lookup_insert. cbn [fmap list_fmap].
      case_bool_decide as Hi.
      * apply list_elem_of_singleton in Hi as ->. by rewrite decide_True.
      * rewrite decide_False; [done|]. intros [<- _]. apply Hi.
        by apply list_elem_of_singleton.
Qed.

(** ** The constraint matrix beside the actuator's rows *)

Lemma lookup_row_writeLine m r cols r' :
  lookup_row (writeLine_addCols m r cols) r'
  = if Z.eqb r r' then Some (default [] (lookup_row m r) ++ cols)
    else lookup_row m r'.
Proof.
  induction m as [|[r0 es] m IH]; cbn [writeLine_addCols lookup_row].
  - by destruct (Z.eqb_spec r r').
  - destruct (Z.eqb_spec r0 r) as [->|Hne]; cbn [lookup_row].
    + by destruct (Z.eqb_spec r r').
    + rewrite IH. destruct (Z.eqb_spec r0 r') as [->|Hne'].
      * by rewrite (proj2 (Z.eqb_neq r r')) by done.
      * done.
Qed.

Lemma addCols_entries c dir cols :
  addCols (m_state c) (d_indices c) dir = Some cols → cols = entries c dir.
Proof.
  unfold entries. destruct (m_state c) as [n|].
  - rewrite addCols_Some. by intros [= <-].
  - destruct (d_indices c); [by intros [= <-]|done].
Qed.

(** X12. [buildConstraintMatrix] touches only the rows of the actuator:
    every other row of the solver's matrix is as it was, and the state of
    the actuator changes in [constraintIndex] and [m_nbLines] only.  On its
    own rows it overwrites nothing: the entries a row already had stay in
    front, followed by one entry per index below the point count, all with
    the same direction. *)
Theorem buildConstraintMatrix_frame c cMatrix cIndex s s' cMatrix' cIndex' :
  buildConstraintMatrix c cMatrix cIndex s = Some (s', cMatrix', cIndex') →
  s' = set_m_nbLines (m_nbLines s') (set_d_constraintIndex cIndex s)
  ∧ (∀ r, r ∉ constraint_rows s' →
          lookup_row cMatrix' r = lookup_row cMatrix r)
  ∧ (∀ r, r ∈ constraint_rows s' →
          ∃ dir, lookup_row cMatrix' r
                 = Some (default [] (lookup_row cMatrix r) ++ entries c dir)).
Proof.
  unfold buildConstraintMatrix, constraint_rows. cbn zeta. state_simpl.
  case_decide as Hd.
  - unfold for_upto, Deriv_total_size, free_row. cbn [seq for_each].
    destruct (addCols _ _ (Deriv_set Deriv_zero 0 Real.one)) as [c0|] eqn:E0;
      [|done].
    destruct (addCols _ _ (Deriv_set Deriv_zero 1 Real.one)) as [c1|] eqn:E1;
      [|done].
    destruct (addCols _ _ (Deriv_set Deriv_zero 2 Real.one)) as [c2|] eqn:E2;
      [|done].
    apply addCols_entries in E0, E1, E2. subst c0 c1 c2.
    cbn [mbind option_bind fst snd]. intros [= <- <- <-]. state_simpl.
    rewrite decide_True by done. cbn [seq fmap list_fmap].
    change (Z.of_nat 0) with 0. change (Z.of_nat 1) with 1.
    change (Z.of_nat 2) with 2.
    pose proof (wrap32_distinct cIndex 0 1) as D01.
    pose proof (wrap32_distinct cIndex 0 2) as D02.
    pose proof (wrap32_distinct cIndex 1 2) as D12.
    pose proof (wrap32_distinct cIndex 1 0) as D10.
    pose proof (wrap32_distinct cIndex 2 0) as D20.
    pose proof (wrap32_distinct cIndex 2 1) as D21.
    split; [done|]. split.
    + intros r Hr. rewrite !elem_of_cons in Hr.
      rewrite !lookup_row_writeLine.
      destruct (Z.eqb_spec (wrap32 (cIndex + 2)) r); [naive_solver|].
      destruct (Z.eqb_spec (wrap32 (cIndex + 1)) r); [naive_solver|].
      destruct (Z.eqb_spec (wrap32 (cIndex + 0)) r); [naive_solver|].
      done.
    + intros r Hr. rewrite !elem_of_cons in Hr.
      destruct Hr as [->|[->|[->|Hr]]]; [| | |by apply not_elem_of_nil in Hr].
      all: rewrite !lookup_row_writeLine.
      all: rewrite ?Z.eqb_refl, ?D01, ?D02, ?D12, ?D10, ?D20, ?D21 by lia.
      all: by eexists.
  - destruct (addCols _ _ _) as [cols|] eqn:E; [|done].
    apply addCols_entries in E. subst cols.
    cbn [mbind option_bind]. intros [= <- <- <-]. state_simpl.
    rewrite decide_False by done.
    split; [done|]. split.
    + intros r Hr. rewrite lookup_row_writeLine.
      destruct (Z.eqb_spec cIndex r) as [->|]; [|done].
      exfalso. apply Hr. by left.
    + intros r Hr. apply list_elem_of_singleton in Hr as ->.
      rewrite lookup_row_writeLine, Z.eqb_refl. by eexists.
Qed.

Lemma buildConstraintMatrix_frame_witness :
  ∃ s' cMatrix',
    buildConstraintMatrix fixed_config [(3, [(4, x_axis)]); (7, [])] 7
      (one_axis Real.zero) = Some (s', cMatrix', 8)
    ∧ lookup_row cMatrix' 3 = Some [(4, x_axis)]
    ∧ lookup_row cMatrix' 7
      = Some [(0, normalized x_axis); (1, normalized x_axis)].
Proof.
  eexists _, _. split; [vm_compute; reflexivity|].
  destruct (buildConstraintMatrix_frame fixed_config
              [(3, [(4, x_axis)]); (7, [])] 7 (one_axis Real.zero) _ _ _
              eq_refl) as (_ & H & _).
  split; [|vm_compute; reflexivity].
  rewrite H; [reflexivity|]. vm_compute.
  intros Hc. apply list_elem_of_singleton in Hc. discriminate Hc.
Defined.

(** ** [draw] *)

Lemma draw_indices_arrows log c s positions visuScale n indices cmds dir
    cmds' dir' :
  m_state c = Some n →
  draw_indices log c s positions visuScale indices (cmds, dir)
  = Some (cmds', dir') →
  ∃ arrows,
    cmds' = cmds ++ arrows
    ∧ length arrows = length (filter (fun i => i < n) indices)
    ∧ Some <$> arrow_targets arrows
      = (fun i => positions !! Z.to_nat i)
          <$> filter (fun i => i < n) indices.
Proof.
  intros Hn. revert cmds dir.
  induction indices as [|index rest IH]; intros cmds dir H.
  - injection H as <- <-. exists []. by rewrite app_nil_r.
  - cbn [draw_indices] in H.
    destruct (draw_index log c s positions visuScale index (cmds, dir))
      as [[cmds1 dir1]|] eqn:E1; [|done].
    cbn [mbind option_bind] in H.
    destruct (IH _ _ H) as (arrows & -> & Hl & Ht).
    unfold draw_index in E1. rewrite Hn in E1.
    cbn [mbind option_bind] in E1. rewrite filter_cons.
    destruct (Z.ltb_spec index n) as [Hlt|Hge].
    + rewrite decide_True by done. unfold vec_get in E1.
      destruct (positions !! Z.to_nat index) as [p|] eqn:Ep; [|done].
      cbn [mbind option_bind] in E1.
      assert (∃ p1 r, cmds1 = cmds ++ [DrawArrow p1 p r]) as (p1 & r & ->).
      { case_decide.
        - destruct (d_force s !! 0%nat); [|done].
          destruct (d_force s !! 1%nat); [|done].
          destruct (d_force s !! 2%nat); [|done].
          cbn [mbind option_bind] in E1. injection E1 as <- <-.
          by eexists _, _.
        - destruct (d_force s !! 0%nat); [|done].
          cbn [mbind option_bind] in E1. injection E1 as <- <-.
          by eexists _, _. }
      exists (DrawArrow p1 p r :: arrows).
      split; [by rewrite <- app_assoc|].
      split; [cbn [length]; by rewrite Hl|].
      change (arrow_targets (DrawArrow p1 p r :: arrows))
        with (p :: arrow_targets arrows).
      by rewrite !fmap_cons, Ht, Ep.
    + rewrite decide_False by lia. injection E1 as <- <-. by exists arrows.
Qed.

(** X13. [draw] issues no call unless the display flag and [showForce]
    are both on.  When they are and it returns, the calls are: lighting
    enabled, then one arrow for every index below the point count, in the
    order of [indices], each ending at the position of its point, then the
    draw state restored. *)
Theorem draw_arrows log showFields showForce visuScale c positions s cmds :
  draw log showFields showForce visuScale c positions s = Some cmds →
  if showFields && showForce
  then ∃ n arrows,
         m_state c = Some n
         ∧ cmds = SetLightingEnabled true :: arrows ++ [RestoreLastState]
         ∧ length arrows = length (drawn_indices c n)
         ∧ Some <$> arrow_targets arrows
           = (fun i => positions !! Z.to_nat i) <$> drawn_indices c n
  else cmds = [].
Proof.
  unfold draw.
  destruct showFields, showForce; cbn [negb orb andb]; intros H;
    try (by injection H as <-).
  destruct (m_state c) as [n|] eqn:Hn; [|done].
  cbn [mbind option_bind] in H.
  destruct (draw_indices _ _ _ _ _ _ _) as [[cmds1 d1]|] eqn:E; [|done].
  cbn [mbind option_bind] in H. injection H as <-.
  destruct (draw_indices_arrows _ _ _ _ _ _ _ _ _ _ _ Hn E)
    as (arrows & -> & Hl & Ht).
  by exists n, arrows.
Qed.

Lemma draw_arrows_witness :
  ∃ cmds,
    draw (fun x => x) true true (Real.of_dec 1 1)
      (with_indices [1; 7; 0] (Some 2) fixed_config)
      [Deriv_zero; x_axis] (one_axis (Real.of_Z 3)) = Some cmds
    ∧ arrow_targets cmds = [x_axis; Deriv_zero]
    ∧ length cmds = 4%nat.
Proof.
  destruct (draw _ _ _ _ _ _ _) as [cmds|] eqn:E;
    [|vm_compute in E; discriminate E].
  exists cmds. split; [reflexivity|].
  pose proof (draw_arrows _ _ _ _ _ _ _ _ E) as (n & arrows & _).
  revert E. vm_compute. intros E. injection E as <-.
  split; reflexivity.
Defined.

Lemma draw_index_is_Some log c s positions visuScale n index acc :
  initialised s → m_state c = Some n →
  is_Some (draw_index log c s positions visuScale index acc)
  ↔ (index < n → (Z.to_nat index < length positions)%nat).
Proof.
  intros Hi Hn. unfold draw_index. destruct acc as [cmds dir].
  rewrite Hn. cbn [mbind option_bind]. unfold vec_get.
  destruct (Z.ltb_spec index n) as [Hlt|Hge].
  - split.
    + intros Hs _. apply lookup_lt_is_Some.
      destruct (positions !! Z.to_nat index); [by eexists|by destruct Hs].
    + intros Hr.
      destruct (lookup_lt_is_Some_2 positions _ (Hr Hlt)) as [p ->].
      cbn [mbind option_bind].
      destruct Hi as (Hd & Lf & _). unfold Deriv_total_size in Hd.
      case_decide.
      * destruct (lookup_lt_is_Some_2 (d_force s) 0) as [f0 ->]; [lia|].
        destruct (lookup_lt_is_Some_2 (d_force s) 1) as [f1 ->]; [lia|].
        destruct (lookup_lt_is_Some_2 (d_force s) 2) as [f2 ->]; [lia|].
        by eexists.
      * destruct (lookup_lt_is_Some_2 (d_force s) 0) as [f0 ->]; [lia|].
        by eexists.
  - split; [intros _ ?; lia|by eexists].
Qed.

Lemma draw_indices_is_Some log c s positions visuScale n indices acc :
  initialised s → m_state c = Some n →
  is_Some (draw_indices log c s positions visuScale indices acc)
  ↔ ∀ i, i ∈ indices → i < n → (Z.to_nat i < length positions)%nat.
Proof.
  intros Hi Hn. revert acc.
  induction indices as [|index rest IH]; intros acc; cbn [draw_indices].
  - split; [|by eexists]. intros _ i Hin. by apply not_elem_of_nil in Hin.
  - pose proof (draw_index_is_Some log c s positions visuScale n index acc
                  Hi Hn) as Hstep.
    destruct (draw_index log c s positions visuScale index acc)
      as [acc'|]; cbn [mbind option_bind].
    + rewrite IH. split.
      * intros Hr i Hin. apply elem_of_cons in Hin as [->|Hin].
        -- apply Hstep. by eexists.
        -- by apply Hr.
      * intros Hr i Hin. apply Hr. by right.
    + split; [by intros [? ?]|]. intros Hr. apply Hstep.
      apply Hr. by left.
Qed.

(** X14. On an initialised actuator, [draw] with both flags on returns
    exactly when a mechanical state is attached and every index below its
    point count has a position; with a flag off it always returns.  The
    force is never read outside its vector. *)
Theorem draw_defined log showFields showForce visuScale c positions s :
  initialised s →
  is_Some (draw log showFields showForce visuScale c positions s)
  ↔ showFields && showForce = false
    ∨ ∃ n, m_state c = Some n
           ∧ ∀ i, i ∈ d_indices c → i < n →
                  (Z.to_nat i < length positions)%nat.
Proof.
  intros Hi. unfold draw.
  destruct showFields, showForce; cbn [negb orb andb];
    try (split; [by left|by eexists]).
  destruct (m_state c) as [n|] eqn:Hn; cbn [mbind option_bind].
  - pose proof (draw_indices_is_Some log c s positions visuScale n
                  (d_indices c) ([SetLightingEnabled true], d_direction c)
                  Hi Hn) as Hs.
    destruct (draw_indices _ _ _ _ _ _ _) as [[cmds d]|];
      cbn [mbind option_bind].
    + split; [|by eexists]. intros _. right. exists n. split; [done|].
      apply Hs. by eexists.
    + split; [by intros [? ?]|]. intros [?|(n' & Hn' & Hr)]; [done|].
      injection Hn' as <-. by destruct (proj2 Hs Hr).
  - split; [by intros [? ?]|]. by intros [?|(n' & ? & _)].
Qed.

Lemma draw_defined_witness :
  initialised three_axes
  ∧ is_Some (draw (fun x => x) true true (Real.of_dec 1 1)
               (with_indices [1; 7; 0] (Some 2) free_config)
               [Deriv_zero; x_axis] three_axes).
Proof.
  assert (Hi : initialised three_axes).
  { unfold initialised. cbn. tauto. }
  split; [exact Hi|].
  apply (draw_defined _ _ _ _ _ _ _ Hi). right. exists 2.
  split; [reflexivity|]. intros i Hin Hlt.
  change (length [Deriv_zero; x_axis]) with 2%nat. 
  apply elem_of_cons in Hin as [->|Hin]; [lia|].
  apply elem_of_cons in Hin as [->|Hin]; [lia|].
  apply list_elem_of_singleton in Hin as ->. lia.
Defined.

Lemma draw_indices_fixed log c s positions visuScale n f0 indices cmds dir
    cmds' dir' :
  (m_dim s ≤ 1)%nat → m_state c = Some n → d_force s !! 0%nat = Some f0 →
  draw_indices log c s positions visuScale indices (cmds, dir)
  = Some (cmds', dir') →
  cmds' = cmds ++ imap (fixed_arrow log visuScale f0 dir)
                    (omap (fun i => positions !! Z.to_nat i)
                       (filter (fun i => i < n) indices)).
Proof.
  intros Hd Hn Hf. revert cmds dir.
  induction indices as [|index rest IH]; intros cmds dir H.
  - injection H as <- <-. by rewrite app_nil_r.
  - cbn [draw_indices] in H.
    destruct (draw_index log c s positions visuScale index (cmds, dir))
      as [[cmds1 dir1]|] eqn:E1; [|done].
    cbn [mbind option_bind] in H. rewrite (IH _ _ H).
    unfold draw_index in E1. rewrite Hn in E1.
    cbn [mbind option_bind] in E1. rewrite filter_cons.
    destruct (Z.ltb_spec index n) as [Hlt|Hge].
    + rewrite decide_True by done. unfold vec_get in E1.
      cbn [omap list_omap].
      destruct (positions !! Z.to_nat index) as [p|] eqn:Ep; [|done].
      cbn [mbind option_bind] in E1.
      rewrite decide_False in E1 by lia. rewrite Hf in E1.
      cbn [mbind option_bind] in E1. injection E1 as <- <-.
      rewrite imap_cons, <- app_assoc. cbn [app]. do 2 f_equal.
      apply imap_ext. intros k q _. unfold fixed_arrow. cbn [compose].
      change (Deriv_div dir (norm dir)) with (normalized dir).
      by rewrite (Nat.iter_succ_r (S k)).
    + rewrite decide_False by lia. by injection E1 as <- <-.
Qed.

(** X15. In fixed mode [draw] divides its local copy of [direction] by
    its norm again at every point it draws: the arrow of the [k]-th point
    drawn uses the direction normalised [k + 1] times, scaled by
    [log(force[0] + 1)] and by [visuScale], and has the radius
    [log(force[0] + 1) * visuScale / 20]. *)
Theorem draw_fixed_renormalises log visuScale c positions s cmds n f0 :
  draw log true true visuScale c positions s = Some cmds →
  (m_dim s ≤ 1)%nat →
  m_state c = Some n →
  d_force s !! 0%nat = Some f0 →
  cmds = SetLightingEnabled true
         :: imap (fixed_arrow log visuScale f0 (d_direction c))
              (omap (fun i => positions !! Z.to_nat i) (drawn_indices c n))
         ++ [RestoreLastState].
Proof.
  unfold draw. cbn [negb orb]. intros H Hd Hn Hf.
  rewrite Hn in H. cbn [mbind option_bind] in H.
  destruct (draw_indices _ _ _ _ _ _ _) as [[cmds1 d1]|] eqn:E; [|done].
  cbn [mbind option_bind] in H. injection H as <-.
  by rewrite (draw_indices_fixed _ _ _ _ _ _ _ _ _ _ _ _ Hd Hn Hf E).
Qed.

Lemma draw_fixed_renormalises_witness :
  ∃ cmds,
    draw (fun x => x) true true (Real.of_dec 1 1)
      (with_indices [1; 7; 0] (Some 2) fixed_config)
      [Deriv_zero; x_axis] (one_axis (Real.of_Z 3)) = Some cmds
    ∧ cmds
      = [SetLightingEnabled true;
         fixed_arrow (fun x => x) (Real.of_dec 1 1) (Real.of_Z 3) x_axis 0
           x_axis;
         fixed_arrow (fun x => x) (Real.of_dec 1 1) (Real.of_Z 3) x_axis 1
           Deriv_zero;
         RestoreLastState].
Proof.
  destruct (draw _ _ _ _ _ _ _) as [cmds|] eqn:E;
    [|vm_compute in E; discriminate E].
  exists cmds. split; [reflexivity|].
  apply (draw_fixed_renormalises _ _ _ _ _ _ 2 (Real.of_Z 3) E);
    [vm_compute; lia|reflexivity|reflexivity].
Defined.
